(** * Command palette: recency history and result pipeline

    A shallow embedding of
    [src/vs/workbench/contrib/quickopen/browser/commandsHandler.ts]:
    the most-recently-used store of executed commands ([CommandsHistory]),
    the entries shown in the palette ([BaseCommandEntry]) and the pipeline
    that builds, de-duplicates, disambiguates, ranks and groups them
    ([CommandsHandler.doGetResults]). *)

From Stdlib Require Import ZArith Ascii String.
From stdpp Require Import base list strings gmap sorting.

Set Warnings "-clear-no-such-hyp".

(** ** JavaScript primitives used by the file *)

(** Truthiness of a string: only the empty string is falsy. *)
Definition truthyString (s : string) : bool :=
  negb (String.eqb s "").

(** Truthiness of [number | undefined]: [undefined] and [0] are falsy. *)
Definition truthyNumber (n : option Z) : bool :=
  match n with
  | Some v => negb (v =? 0)%Z
  | None => false
  end.

(** Template-literal conversion of [string | undefined]. *)
Definition templateString (s : option string) : string :=
  match s with
  | Some v => v
  | None => "undefined"
  end.

(** [String.prototype.toLowerCase], on the ASCII range; other code units are
    left as they are. *)
Definition lowerAscii (c : ascii) : ascii :=
  let n := nat_of_ascii c in
  if (65 <=? n)%nat && (n <=? 90)%nat then ascii_of_nat (n + 32) else c.

Fixpoint toLowerCase (s : string) : string :=
  match s with
  | EmptyString => EmptyString
  | String c s' => String (lowerAscii c) (toLowerCase s')
  end.

(** [String.prototype.trim], with the ASCII white space and line
    terminators. *)
Definition isWhiteSpace (c : ascii) : bool :=
  let n := nat_of_ascii c in
  ((9 <=? n)%nat && (n <=? 13)%nat) || (n =? 32)%nat.

Fixpoint trimStart (s : string) : string :=
  match s with
  | EmptyString => EmptyString
  | String c s' => if isWhiteSpace c then trimStart s' else s
  end.

Fixpoint trimEnd (s : string) : string :=
  match s with
  | EmptyString => EmptyString
  | String c s' =>
      let r := trimEnd s' in
      if isWhiteSpace c && negb (truthyString r) then EmptyString
      else String c r
  end.

Definition trim (s : string) : string := trimEnd (trimStart s).

(** [Array.prototype.sort(compareFn)].  The engine's sort is stable
    (ECMAScript 2019): it is modelled as the stable insertion sort, where an
    element goes behind the elements [y] that follow it as long as
    [compareFn x y] is positive.  For a consistent comparator every stable
    sort returns this array; for an inconsistent one the order is left to
    the engine, and nothing below relies on it. *)
Section array_sort.
Context {A : Type} (compareFn : A → A → Z).

Fixpoint insertSorted (x : A) (l : list A) : list A :=
  match l with
  | [] => [x]
  | y :: l' =>
      if (compareFn x y <=? 0)%Z then x :: l else y :: insertSorted x l'
  end.

Definition sort (l : list A) : list A := foldr insertSorted [] l.

(** The order that the comparator induces: [x] may stay in front of [y]. *)
Definition notAfter (x y : A) : Prop := (compareFn x y ≤ 0)%Z.

(** The engine asks of a comparator that it be consistent.  The insertion
    only compares an element with the elements that follow it in the
    array, so what it needs is that, for an element [x] in front of an
    element [y], [y] may go first whenever [x] has to go after [y]. *)
Definition agreesWith (x y : A) : Prop :=
  (0 < compareFn x y)%Z → (compareFn y x ≤ 0)%Z.
End array_sort.

(** Modelled from the spec: [distinct] of [vs/base/common/arrays] is not in
    the source tree.  It removes the elements whose key is a duplicate of an
    earlier one and preserves first-seen order; [seen] is the set of keys met
    so far. *)
Fixpoint distinctFrom {A : Type} (keyFn : A → string) (seen : gset string)
    (array : list A) : list A :=
  match array with
  | [] => []
  | elem :: rest =>
      if decide (keyFn elem ∈ seen) then distinctFrom keyFn seen rest
      else elem :: distinctFrom keyFn ({[keyFn elem]} ∪ seen) rest
  end.

Definition distinct {A : Type} (array : list A) (keyFn : A → string) : list A :=
  distinctFrom keyFn ∅ array.

(** ** The bounded recency cache *)

(** Modelled from the spec: [LRUCache] of [vs/base/common/map] is not in the
    source tree.  The spec's RecencyStore is an ordered map keyed by command
    identifier whose order is the recency order; setting a key moves it to
    the most recent position, and when the size exceeds the capacity the
    least recently touched entries are dropped.  [entries] lists the
    bindings from the least recent to the most recent one. *)
Module LRUCache.

Record t : Type := mk { limit : nat; entries : list (string * Z) }.

Definition new (limit : nat) : t := mk limit [].

Definition size (c : t) : nat := length (entries c).

Definition trimOld (newSize : nat) (es : list (string * Z)) : list (string * Z) :=
  drop (length es - newSize) es.

(** The bindings that [trimOld] drops. *)
Definition trimmed (newSize : nat) (es : list (string * Z)) : list (string * Z) :=
  take (length es - newSize) es.

Definition checkTrim (c : t) : t :=
  if (limit c <? size c)%nat then mk (limit c) (trimOld (limit c) (entries c))
  else c.

(** The binding of [key] is removed where it was and put last. *)
Definition touch (key : string) (value : Z) (es : list (string * Z)) :
    list (string * Z) :=
  filter (λ e, e.1 ≠ key) es ++ [(key, value)].

Definition set (key : string) (value : Z) (c : t) : t :=
  checkTrim (mk (limit c) (touch key value (entries c))).

(** The bindings evicted by [set key value]. *)
Definition evicted (key : string) (value : Z) (c : t) : list (string * Z) :=
  let es := touch key value (entries c) in
  if (limit c <? length es)%nat then trimmed (limit c) es else [].

Fixpoint lookup (key : string) (es : list (string * Z)) : option Z :=
  match es with
  | [] => None
  | e :: es' => if decide (e.1 = key) then Some e.2 else lookup key es'
  end.

(** Lookup that leaves the recency order untouched. *)
Definition peek (key : string) (c : t) : option Z := lookup key (entries c).

Definition setLimit (newLimit : nat) (c : t) : t :=
  checkTrim (mk newLimit (entries c)).

End LRUCache.

(** ** [CommandsHistory] *)

(** [ISerializedCommandHistory], as [JSON.parse] returns it. *)
Record ISerializedCommandHistory : Type := {
  usesLRU : option bool;
  serializedEntries : list (string * Z)
}.

(** The two keys of the storage service that the history uses; a missing or
    unparseable [commandPalette.mru.cache] is [None]. *)
Record Storage : Type := {
  PREF_KEY_CACHE : option ISerializedCommandHistory;
  PREF_KEY_COUNTER : option Z
}.

(** The static members of [CommandsHistory] together with the storage. *)
Record CommandsHistory : Type := {
  cache : option LRUCache.t;
  counter : Z;
  storage : Storage
}.

Definition DEFAULT_COMMANDS_HISTORY_LENGTH : nat := 50.

(** The state of a process that has not constructed a history yet. *)
Definition initialHistory (st : Storage) : CommandsHistory :=
  {| cache := None; counter := 1; storage := st |}.

Definition getConfiguredCommandHistoryLength (config : option nat) : nat :=
  match config with
  | Some configuredCommandHistoryLength => configuredCommandHistoryLength
  | None => DEFAULT_COMMANDS_HISTORY_LENGTH
  end.

Definition saveState (h : CommandsHistory) : CommandsHistory :=
  match cache h with
  | None => h
  | Some c =>
      {| cache := cache h;
         counter := counter h;
         storage :=
           {| PREF_KEY_CACHE :=
                Some {| usesLRU := Some true;
                        serializedEntries := LRUCache.entries c |};
              PREF_KEY_COUNTER := Some (counter h) |} |}
  end.

Definition updateConfiguration (configuredCommandsHistoryLength : nat)
    (h : CommandsHistory) : CommandsHistory :=
  match cache h with
  | Some c =>
      if decide (LRUCache.limit c ≠ configuredCommandsHistoryLength) then
        saveState
          {| cache := Some (LRUCache.setLimit configuredCommandsHistoryLength c);
             counter := counter h;
             storage := storage h |}
      else h
  | None => h
  end.

(** The entries in the order in which [load] inserts them. *)
Definition entriesToLoad (serializedCache : ISerializedCommandHistory) :
    list (string * Z) :=
  if default false (usesLRU serializedCache) then
    serializedEntries serializedCache
  else
    sort (λ a b, a.2 - b.2)%Z (serializedEntries serializedCache).

Definition load (configuredCommandsHistoryLength : nat) (h : CommandsHistory) :
    CommandsHistory :=
  let serializedCache := PREF_KEY_CACHE (storage h) in
  let cache0 := LRUCache.new configuredCommandsHistoryLength in
  let cache1 :=
    match serializedCache with
    | Some sc =>
        foldl (λ c entry, LRUCache.set entry.1 entry.2 c) cache0
          (entriesToLoad sc)
    | None => cache0
    end in
  {| cache := Some cache1;
     counter := default (counter h) (PREF_KEY_COUNTER (storage h));
     storage := storage h |}.

(** The constructor: [updateConfiguration] and then [load], with the
    configured length. *)
Definition newCommandsHistory (config : option nat) (h : CommandsHistory) :
    CommandsHistory :=
  let configuredCommandsHistoryLength :=
    getConfiguredCommandHistoryLength config in
  load configuredCommandsHistoryLength
    (updateConfiguration configuredCommandsHistoryLength h).

Definition push (commandId : string) (h : CommandsHistory) : CommandsHistory :=
  match cache h with
  | None => h
  | Some c =>
      saveState
        {| cache := Some (LRUCache.set commandId (counter h) c);
           counter := (counter h + 1)%Z;
           storage := storage h |}
  end.

Definition peek (commandId : string) (h : CommandsHistory) : option Z :=
  cache h ≫= LRUCache.peek commandId.

Definition clearHistory (config : option nat) (h : CommandsHistory) :
    CommandsHistory :=
  saveState
    {| cache := Some (LRUCache.new (getConfiguredCommandHistoryLength config));
       counter := 1;
       storage := storage h |}.

(** A sequence of executed commands, pushed one after the other. *)
Definition pushAll (commandIds : list string) (h : CommandsHistory) :
    CommandsHistory :=
  foldl (λ h commandId, push commandId h) h commandIds.

(** The history of a process whose storage holds [serialized] under
    [commandPalette.mru.cache]. *)
Definition withStoredCache (serialized : ISerializedCommandHistory)
    (h : CommandsHistory) : CommandsHistory :=
  {| cache := cache h;
     counter := counter h;
     storage := {| PREF_KEY_CACHE := Some serialized;
                   PREF_KEY_COUNTER := PREF_KEY_COUNTER (storage h) |} |}.

(** *** The invariant of the store

    The data model of the store: the recency order is the order of the
    counters, which are all below the next counter to hand out, and the
    cache holds no more bindings than its limit. *)
Definition olderThan (a b : string * Z) : Prop := (a.2 < b.2)%Z.

Definition coherent (h : CommandsHistory) : Prop :=
  ∃ c, cache h = Some c ∧
    StronglySorted olderThan (LRUCache.entries c) ∧
    Forall (λ e, (e.2 < counter h)%Z) (LRUCache.entries c) ∧
    (LRUCache.size c ≤ LRUCache.limit c)%nat.

(** ** Actions offered to the palette *)

Module IEditorAction.
Record t : Type := mk { id : string; label : string; alias : string }.
End IEditorAction.

(** [string | ILocalizedString], the type of a menu item's title and
    category. *)
Inductive LocalizableString : Type :=
  | PlainString (s : string)
  | ILocalizedString (value original : string).

Module ICommandAction.
Record t : Type := mk {
  id : string;
  title : LocalizableString;
  category : option LocalizableString
}.
End ICommandAction.

Module MenuItemAction.
Record t : Type := mk { id : string; item : ICommandAction.t }.
End MenuItemAction.

(** What a menu group holds: [MenuItemAction | SubmenuItemAction]. *)
Inductive MenuAction : Type :=
  | IsMenuItemAction (a : MenuItemAction.t)
  | IsSubmenuItemAction.

Record ResolvedKeybinding : Type := { getAriaLabel : option string }.

Record IHighlight : Type := { start : nat; end_ : nat }.

Record Highlights : Type := {
  hlLabel : option (list IHighlight);
  hlAlias : option (list IHighlight)
}.

Inductive EntryAction : Type :=
  | OfEditorAction (a : IEditorAction.t)
  | OfMenuItemAction (a : MenuItemAction.t).

(** ** [BaseCommandEntry]

    The fields of [BaseCommandEntry], followed by those it inherits from
    [QuickOpenEntryGroup] and [QuickOpenEntry] and sets through
    [setHighlights], [setGroupLabel] and [setShowBorder]. *)
Record BaseCommandEntry : Type := {
  commandId : string;
  keybinding : option ResolvedKeybinding;
  label : string;
  description : option string;
  alias : option string;
  labelLowercase : string;
  keybindingAriaLabel : option string;
  action : EntryAction;
  labelHighlights : option (list IHighlight);
  descriptionHighlights : option (list IHighlight);
  detailHighlights : option (list IHighlight);
  groupLabel : option string;
  withBorder : bool
}.

(** The constructor of [BaseCommandEntry], which its two subclasses call
    with their arguments unchanged. *)
Definition newBaseCommandEntry (commandId : string)
    (keybinding : option ResolvedKeybinding) (label : string)
    (alias : option string) (highlights : Highlights) (action : EntryAction) :
    BaseCommandEntry :=
  let labelDiffers := bool_decide (Some label ≠ alias) in
  {| commandId := commandId;
     keybinding := keybinding;
     label := label;
     description := None;
     alias := if labelDiffers then alias else None;
     labelLowercase := toLowerCase label;
     keybindingAriaLabel :=
       match keybinding with
       | Some k =>
           match getAriaLabel k with
           | Some l => if truthyString l then Some l else None
           | None => None
           end
       | None => None
       end;
     action := action;
     labelHighlights := hlLabel highlights;
     descriptionHighlights := None;
     detailHighlights := if labelDiffers then hlAlias highlights else None;
     groupLabel := None;
     withBorder := false |}.

Definition newEditorActionCommandEntry (commandId : string)
    (keybinding : option ResolvedKeybinding) (label : string)
    (meta : option string) (highlights : Highlights)
    (action : IEditorAction.t) : BaseCommandEntry :=
  newBaseCommandEntry commandId keybinding label meta highlights
    (OfEditorAction action).

Definition newActionCommandEntry (commandId : string)
    (keybinding : option ResolvedKeybinding) (label : string)
    (alias : option string) (highlights : Highlights)
    (action : MenuItemAction.t) : BaseCommandEntry :=
  newBaseCommandEntry commandId keybinding label alias highlights
    (OfMenuItemAction action).

Definition getCommandId (e : BaseCommandEntry) : string := commandId e.
Definition getLabel (e : BaseCommandEntry) : string := label e.
Definition getSortLabel (e : BaseCommandEntry) : string := labelLowercase e.
Definition getDescription (e : BaseCommandEntry) : option string := description e.
Definition getKeybinding (e : BaseCommandEntry) : option ResolvedKeybinding :=
  keybinding e.
Definition getDetail (e : BaseCommandEntry) : option string := alias e.
Definition getGroupLabel (e : BaseCommandEntry) : option string := groupLabel e.
Definition showBorder (e : BaseCommandEntry) : bool := withBorder e.

Definition setDescription (d : string) (e : BaseCommandEntry) : BaseCommandEntry :=
  {| commandId := commandId e; keybinding := keybinding e; label := label e;
     description := Some d;
     alias := alias e; labelLowercase := labelLowercase e;
     keybindingAriaLabel := keybindingAriaLabel e; action := action e;
     labelHighlights := labelHighlights e;
     descriptionHighlights := descriptionHighlights e;
     detailHighlights := detailHighlights e;
     groupLabel := groupLabel e; withBorder := withBorder e |}.

Definition setGroupLabel (g : string) (e : BaseCommandEntry) : BaseCommandEntry :=
  {| commandId := commandId e; keybinding := keybinding e; label := label e;
     description := description e;
     alias := alias e; labelLowercase := labelLowercase e;
     keybindingAriaLabel := keybindingAriaLabel e; action := action e;
     labelHighlights := labelHighlights e;
     descriptionHighlights := descriptionHighlights e;
     detailHighlights := detailHighlights e;
     groupLabel := Some g; withBorder := withBorder e |}.

Definition setShowBorder (b : bool) (e : BaseCommandEntry) : BaseCommandEntry :=
  {| commandId := commandId e; keybinding := keybinding e; label := label e;
     description := description e;
     alias := alias e; labelLowercase := labelLowercase e;
     keybindingAriaLabel := keybindingAriaLabel e; action := action e;
     labelHighlights := labelHighlights e;
     descriptionHighlights := descriptionHighlights e;
     detailHighlights := detailHighlights e;
     groupLabel := groupLabel e; withBorder := b |}.

(** [localize(key, message, ...args)] with the default (English) messages. *)
Definition localize_recentlyUsed : string := "recently used".
Definition localize_morecCommands : string := "other commands".
Definition localize_cat_title (category title : string) : string :=
  category +:+ ": " +:+ title.

Definition ShowAllCommandsAction_ID : string := "workbench.action.showCommands".

(** ** [CommandsHandler] *)

Record CancellationToken : Type := { isCancellationRequested : bool }.

(** What the handler reads from the editor and menu services during one
    query: the supported actions of the active text editor widget, when
    there is one that has them, and the groups of the command palette
    menu. *)
Record Workbench : Type := {
  getSupportedActions : option (list IEditorAction.t);
  commandPaletteMenu : list (string * list MenuAction)
}.

(** The state a query can change: the history, the module variable
    [lastCommandPaletteInput], the disposables registered for the closing of
    the palette and the flag of the start-up wait. *)
Record HandlerState : Type := {
  commandsHistory : CommandsHistory;
  lastCommandPaletteInput : option string;
  disposeOnClose : list (list MenuItemAction.t);
  waitedForExtensionsRegistered : bool
}.

(** The sort comparator of [doGetResults], over an arbitrary lookup of
    counters. *)
Definition compareByRecency (localeCompare : string → string → Z)
    (peekCounter : string → option Z) (elementA elementB : BaseCommandEntry) : Z :=
  let counterA := peekCounter (getCommandId elementA) in
  let counterB := peekCounter (getCommandId elementB) in
  if truthyNumber counterA && truthyNumber counterB then
    if bool_decide (default 0 counterA > default 0 counterB)%Z then (-1)%Z else 1%Z
  else if truthyNumber counterA then (-1)%Z
  else if truthyNumber counterB then 1%Z
  else localeCompare (getSortLabel elementA) (getSortLabel elementB).

(** The test [this.commandsHistory.peek(entry.getCommandId())] of the
    grouping stage: whether the entry has a counter that is truthy. *)
Definition hasCounter (peekCounter : string → option Z)
    (entry : BaseCommandEntry) : bool :=
  truthyNumber (peekCounter (getCommandId entry)).

(** "Handle label clashes": the string under which an entry is looked up
    in the set of labels, and the [forEach] over the entries with the set
    [commandLabels] of the labels met so far. *)
Definition commandLabel (entry : BaseCommandEntry) : string :=
  getLabel entry +:+ templateString (getGroupLabel entry).

Fixpoint handleLabelClashes (commandLabels : gset string)
    (entries : list BaseCommandEntry) : list BaseCommandEntry :=
  match entries with
  | [] => []
  | entry :: rest =>
      if decide (commandLabel entry ∈ commandLabels) then
        setDescription (getCommandId entry) entry
          :: handleLabelClashes commandLabels rest
      else
        entry :: handleLabelClashes ({[commandLabel entry]} ∪ commandLabels) rest
  end.

(** The loop, from index 1, that marks the first entry without a counter
    and stops. *)
Fixpoint markOtherCommands (peekCounter : string → option Z)
    (entries : list BaseCommandEntry) : list BaseCommandEntry :=
  match entries with
  | [] => []
  | entry :: rest =>
      if negb (hasCounter peekCounter entry) then
        setGroupLabel localize_morecCommands (setShowBorder true entry) :: rest
      else entry :: markOtherCommands peekCounter rest
  end.

(** "Introduce group marker border between recently used and others". *)
Definition introduceGroupMarkers (peekCounter : string → option Z)
    (entries : list BaseCommandEntry) : list BaseCommandEntry :=
  match entries with
  | [] => []
  | firstEntry :: rest =>
      if hasCounter peekCounter firstEntry then
        setGroupLabel localize_recentlyUsed firstEntry
          :: markOtherCommands peekCounter rest
      else entries
  end.

(** The key that "Remove duplicates" hands to [distinct]. *)
Definition duplicateKey (entry : BaseCommandEntry) : string :=
  getLabel entry +:+ templateString (getGroupLabel entry) +:+ getCommandId entry.

Definition plainValue (s : LocalizableString) : string :=
  match s with
  | PlainString v => v
  | ILocalizedString v _ => v
  end.

(** *** The start-up gate

    Modelled from the spec: [timeout] of [vs/base/common/async], the
    promise [whenInstalledExtensionsRegistered] of the extension service
    and their race are not in the source tree.  After the spec, the gate is
    a race of a timer of a bounded number of time units against the signal
    that the registry of actions is ready, the first of the two to complete
    ending the wait, on a clock that the caller supplies.  [Await] is what
    a query awaits before its pipeline; [awaitedUnits] is how long that
    takes when the signal comes [registeredAfter] time units after the
    query was issued, [None] when it never comes. *)
Inductive Await : Type :=
  | NoAwait
  | AwaitRace (timeoutUnits : nat).

Definition awaitedUnits (a : Await) (registeredAfter : option nat) : nat :=
  match a with
  | NoAwait => 0
  | AwaitRace timeoutUnits =>
      match registeredAfter with
      | Some units => Nat.min timeoutUnits units
      | None => timeoutUnits
      end
  end.

(** The callback that the constructor of the handler registers on
    [whenInstalledExtensionsRegistered()]. *)
Definition onExtensionsRegistered (st : HandlerState) : HandlerState :=
  {| commandsHistory := commandsHistory st;
     lastCommandPaletteInput := lastCommandPaletteInput st;
     disposeOnClose := disposeOnClose st;
     waitedForExtensionsRegistered := true |}.

Inductive HandlerEvent : Type :=
  | ExtensionsRegistered
  | QueryIssued (wb : Workbench) (searchValue : string)
      (token : CancellationToken).

Section CommandsHandler.
(** Collaborators that are not part of the file: the collation of
    [String.prototype.localeCompare], the filter
    [or(matchesPrefix, matchesWords, matchesContiguousSubString)], the
    language of the platform and the keybinding service. *)
Context (localeCompare : string → string → Z).
Context (wordFilter : string → string → option (list IHighlight)).
Context (isDefaultVariant : bool).
Context (lookupKeybinding : string → option ResolvedKeybinding).

Definition editorActionToEntries (searchValue : string)
    (action : IEditorAction.t) : list BaseCommandEntry :=
  if decide (IEditorAction.id action = ShowAllCommandsAction_ID) then []
  else
    let label := IEditorAction.label action in
    if truthyString label then
      let alias :=
        if negb isDefaultVariant then Some (IEditorAction.alias action)
        else None in
      let labelHighlights := wordFilter searchValue label in
      let aliasHighlights :=
        match alias with
        | Some a => if truthyString a then wordFilter searchValue a else None
        | None => None
        end in
      if bool_decide (is_Some labelHighlights) || bool_decide (is_Some aliasHighlights)
      then
        [newEditorActionCommandEntry (IEditorAction.id action)
           (lookupKeybinding (IEditorAction.id action)) label alias
           {| hlLabel := labelHighlights; hlAlias := aliasHighlights |}
           action]
      else []
    else [].

Definition editorActionsToEntries (actions : list IEditorAction.t)
    (searchValue : string) : list BaseCommandEntry :=
  actions ≫= editorActionToEntries searchValue.

Definition menuItemActionToEntries (searchValue : string)
    (action : MenuItemAction.t) : list BaseCommandEntry :=
  let item := MenuItemAction.item action in
  let title := plainValue (ICommandAction.title item) in
  let category : option string :=
    match ICommandAction.category item with
    | Some (PlainString c) => if truthyString c then Some c else None
    | Some (ILocalizedString v _) => Some v
    | None => None
    end in
  let label :=
    match category with
    | Some c => localize_cat_title c title
    | None => title
    end in
  if truthyString label then
    let labelHighlights := wordFilter searchValue label in
    let aliasTitle : option string :=
      match ICommandAction.title item with
      | ILocalizedString _ original =>
          if negb isDefaultVariant then Some original else None
      | PlainString _ => None
      end in
    let truthyCategory := truthyString (default "" category) in
    let aliasCategory : option string :=
      match ICommandAction.category item with
      | Some (ILocalizedString _ original) =>
          if negb isDefaultVariant && truthyCategory then Some original
          else None
      | _ => None
      end in
    let truthyAliasTitle := truthyString (default "" aliasTitle) in
    let alias : option string :=
      if truthyAliasTitle && truthyCategory then
        if truthyString (default "" aliasCategory) then
          Some (default "" aliasCategory +:+ ": " +:+ default "" aliasTitle)
        else Some (default "" category +:+ ": " +:+ default "" aliasTitle)
      else if truthyAliasTitle then aliasTitle
      else None in
    let aliasHighlights :=
      match alias with
      | Some a => if truthyString a then wordFilter searchValue a else None
      | None => None
      end in
    if bool_decide (is_Some labelHighlights) || bool_decide (is_Some aliasHighlights)
    then
      [newActionCommandEntry (MenuItemAction.id action)
         (lookupKeybinding (ICommandAction.id item)) label alias
         {| hlLabel := labelHighlights; hlAlias := aliasHighlights |}
         action]
    else []
  else [].

Definition menuItemActionsToEntries (actions : list MenuItemAction.t)
    (searchValue : string) : list BaseCommandEntry :=
  actions ≫= menuItemActionToEntries searchValue.

(** [menu.getActions().reduce(...).filter(action instanceof MenuItemAction)] *)
Definition menuItemActions (menu : list (string * list MenuAction)) :
    list MenuItemAction.t :=
  (menu ≫= snd) ≫= (λ a,
    match a with
    | IsMenuItemAction m => [m]
    | IsSubmenuItemAction => []
    end).

(** The stages of [doGetResults] that follow the concatenation of the two
    lists of entries. *)
Definition rankEntries (h : CommandsHistory)
    (entries : list BaseCommandEntry) : list BaseCommandEntry :=
  sort (compareByRecency localeCompare (λ id, peek id h)) entries.

Definition processEntries (h : CommandsHistory)
    (entries : list BaseCommandEntry) : list BaseCommandEntry :=
  let entries := distinct entries duplicateKey in
  let entries := handleLabelClashes ∅ entries in
  let entries := rankEntries h entries in
  introduceGroupMarkers (λ id, peek id h) entries.

Definition doGetResults (wb : Workbench) (st : HandlerState)
    (searchValue : string) (token : CancellationToken) :
    list BaseCommandEntry * HandlerState :=
  if isCancellationRequested token then ([], st)
  else
    let searchValue := trim searchValue in
    let editorActions := default [] (getSupportedActions wb) in
    let editorEntries := editorActionsToEntries editorActions searchValue in
    let menuActions := menuItemActions (commandPaletteMenu wb) in
    let commandEntries := menuItemActionsToEntries menuActions searchValue in
    let entries := editorEntries ++ commandEntries in
    (processEntries (commandsHistory st) entries,
     {| commandsHistory := commandsHistory st;
        lastCommandPaletteInput := Some searchValue;
        disposeOnClose := disposeOnClose st ++ [menuActions];
        waitedForExtensionsRegistered := waitedForExtensionsRegistered st |}).

(** [getResults]: the await of line 447, if any, and then the pipeline.
    When the flag is set the pipeline is entered at once.  Otherwise the
    method awaits the race of [timeout(800)] against the registration of
    the extensions, sets the flag and enters the pipeline.  The queries of
    a session are answered in turn, so the pipeline of one query is over
    when the next one is issued. *)
Definition getResults (wb : Workbench) (st : HandlerState)
    (searchValue : string) (token : CancellationToken) :
    Await * (list BaseCommandEntry * HandlerState) :=
  if waitedForExtensionsRegistered st then
    (NoAwait, doGetResults wb st searchValue token)
  else
    (AwaitRace 800,
     doGetResults wb
       {| commandsHistory := commandsHistory st;
          lastCommandPaletteInput := lastCommandPaletteInput st;
          disposeOnClose := disposeOnClose st;
          waitedForExtensionsRegistered := true |}
       searchValue token).

(** What happens to a handler in the course of a session, and the awaits
    of its queries, in the order of the queries. *)
Definition handleEvent (st : HandlerState) (event : HandlerEvent) :
    option Await * HandlerState :=
  match event with
  | ExtensionsRegistered => (None, onExtensionsRegistered st)
  | QueryIssued wb searchValue token =>
      let r := getResults wb st searchValue token in (Some r.1, r.2.2)
  end.

Fixpoint awaitsOf (events : list HandlerEvent) (st : HandlerState) : list Await :=
  match events with
  | [] => []
  | event :: rest =>
      let r := handleEvent st event in
      match r.1 with
      | Some a => a :: awaitsOf rest r.2
      | None => awaitsOf rest r.2
      end
  end.

(** [onBeforeRunCommand]: running an entry records its command. *)
Definition onBeforeRunCommand (commandId : string) (st : HandlerState) :
    HandlerState :=
  {| commandsHistory := push commandId (commandsHistory st);
     lastCommandPaletteInput := lastCommandPaletteInput st;
     disposeOnClose := disposeOnClose st;
     waitedForExtensionsRegistered := waitedForExtensionsRegistered st |}.

End CommandsHandler.

(** ** The actions and the remaining methods of the handler *)

Definition ALL_COMMANDS_PREFIX : string := ">".

(** [ShowAllCommandsAction.run]: the arguments of [quickOpenService.show],
    the value of the input box and the selected range [(start, end)] of it,
    from the setting [workbench.commandPalette.preserveInput] and the
    module variable [lastCommandPaletteInput]. *)
Definition ShowAllCommandsAction_run (preserveInput : option bool)
    (lastInput : option string) : string * option (nat * nat) :=
  let restoreInput := bool_decide (preserveInput = Some true) in
  let hasLastInput := truthyString (default "" lastInput) in
  let value :=
    if restoreInput && hasLastInput
    then ALL_COMMANDS_PREFIX +:+ default "" lastInput
    else ALL_COMMANDS_PREFIX in
  (value, if hasLastInput then Some (1%nat, String.length value) else None).

(** [ClearCommandHistoryAction.run] *)
Definition ClearCommandHistoryAction_run (config : option nat)
    (h : CommandsHistory) : CommandsHistory :=
  let commandHistoryLength := getConfiguredCommandHistoryLength config in
  if (0 <? commandHistoryLength)%nat then clearHistory config h else h.

(** [CommandsHandler.updateConfiguration]: the value it gives to
    [commandHistoryEnabled]. *)
Definition commandHistoryEnabled (config : option nat) : bool :=
  (0 <? getConfiguredCommandHistoryLength config)%nat.

Record IAutoFocus : Type := {
  autoFocusFirstEntry : bool;
  autoFocusPrefixMatch : option string
}.

(** [CommandsHandler.getAutoFocus]; [modelEntries] are the entries of
    [context.model], when there is a model. *)
Definition getAutoFocus (historyEnabled : bool) (h : CommandsHistory)
    (searchValue : string) (modelEntries : option (list BaseCommandEntry)) :
    IAutoFocus :=
  let prefixMatch := trim searchValue in
  let keepOnRecent :=
    truthyString prefixMatch && historyEnabled &&
    match modelEntries ≫= head with
    | Some firstEntry => hasCounter (λ id, peek id h) firstEntry
    | None => false
    end in
  {| autoFocusFirstEntry := true;
     autoFocusPrefixMatch := if keepOnRecent then None else Some prefixMatch |}.

Inductive Mode : Type := PREVIEW | OPEN | OPEN_IN_BACKGROUND.

(** [BaseCommandEntry.run], as far as it is synchronous: in mode [OPEN],
    [runAction] tells the handler through [onBeforeRun] before it schedules
    the command runner; the runner itself is not modelled. *)
Definition runEntry (mode : Mode) (entry : BaseCommandEntry)
    (st : HandlerState) : bool * HandlerState :=
  match mode with
  | OPEN => (true, onBeforeRunCommand (getCommandId entry) st)
  | _ => (false, st)
  end.

(** [CommandsHandler.onClose]: [this.disposeOnClose.clear()]. *)
Definition onClose (st : HandlerState) : HandlerState :=
  {| commandsHistory := commandsHistory st;
     lastCommandPaletteInput := lastCommandPaletteInput st;
     disposeOnClose := [];
     waitedForExtensionsRegistered := waitedForExtensionsRegistered st |}.

(** The keys of the cache are pairwise different: [set] replaces the
    binding of a key that is there. *)
Definition uniqueKeys (h : CommandsHistory) : Prop :=
  ∀ c, cache h = Some c → NoDup (LRUCache.entries c).*1.

(** *** The operations on the history, in sequence

    What the rest of the program does to the history: a command is run,
    the configuration changes, the history is cleared by the action, a
    history is constructed again from the storage. *)
Inductive HistoryOp : Type :=
  | OpPush (commandId : string)
  | OpUpdateConfiguration (configuredCommandsHistoryLength : nat)
  | OpClearAction (config : option nat)
  | OpConstruct (config : option nat).

Definition runHistoryOp (h : CommandsHistory) (op : HistoryOp) : CommandsHistory :=
  match op with
  | OpPush commandId => push commandId h
  | OpUpdateConfiguration n => updateConfiguration n h
  | OpClearAction config => ClearCommandHistoryAction_run config h
  | OpConstruct config => newCommandsHistory config h
  end.

Definition runHistoryOps (ops : list HistoryOp) (h : CommandsHistory) :
    CommandsHistory :=
  foldl runHistoryOp h ops.

(** What is stored is in the order of its counters and below the counter
    that a load would take. *)
Definition storedCoherent (h : CommandsHistory) : Prop :=
  match PREF_KEY_CACHE (storage h) with
  | None => True
  | Some sc =>
      StronglySorted olderThan (entriesToLoad sc) ∧
      Forall (λ e, (e.2 < default (counter h) (PREF_KEY_COUNTER (storage h)))%Z)
        (entriesToLoad sc)
  end.

(** The state of a process in good order: no history constructed yet, or a
    coherent one; coherent storage. *)
Definition wellKept (h : CommandsHistory) : Prop :=
  (cache h = None ∨ coherent h) ∧ storedCoherent h.

(** ** Closed inputs for the examples *)

(** A collation for the examples: comparison by code units. *)
Fixpoint codeUnitCompare (a b : string) : Z :=
  match a, b with
  | EmptyString, EmptyString => 0%Z
  | EmptyString, String _ _ => (-1)%Z
  | String _ _, EmptyString => 1%Z
  | String x a', String y b' =>
      match (nat_of_ascii x ?= nat_of_ascii y)%nat with
      | Lt => (-1)%Z
      | Gt => 1%Z
      | Eq => codeUnitCompare a' b'
      end
  end.

(** The filter on the empty query: every text matches, nothing is
    highlighted. *)
Definition matchEverything (query text : string) : option (list IHighlight) :=
  Some [].

Definition noKeybinding (commandId : string) : option ResolvedKeybinding := None.

(** A menu item without category, and the entry the handler builds for it
    on the empty query. *)
Definition menuItem (commandId title : string) : MenuItemAction.t :=
  MenuItemAction.mk commandId
    (ICommandAction.mk commandId (PlainString title) None).

Definition menuEntry (commandId title : string) : BaseCommandEntry :=
  newActionCommandEntry commandId None title None
    {| hlLabel := Some []; hlAlias := None |} (menuItem commandId title).

Definition menuOf (items : list MenuItemAction.t) : Workbench :=
  {| getSupportedActions := None;
     commandPaletteMenu := [("", IsMenuItemAction <$> items)] |}.

Definition historyOf (limit : nat) (entries : list (string * Z)) (counter : Z) :
    CommandsHistory :=
  {| cache := Some (LRUCache.mk limit entries);
     counter := counter;
     storage := {| PREF_KEY_CACHE := None; PREF_KEY_COUNTER := None |} |}.

Definition stateOf (h : CommandsHistory) : HandlerState :=
  {| commandsHistory := h;
     lastCommandPaletteInput := None;
     disposeOnClose := [];
     waitedForExtensionsRegistered := true |}.

(** A handler right after its construction, before the extensions are
    registered and before any query. *)
Definition startingStateOf (h : CommandsHistory) : HandlerState :=
  {| commandsHistory := h;
     lastCommandPaletteInput := None;
     disposeOnClose := [];
     waitedForExtensionsRegistered := false |}.

Definition notCancelled : CancellationToken :=
  {| isCancellationRequested := false |}.

(** The candidates of the ranking example: [A] and [B] were run, with
    counters 5 and 9; "zeta" and "alpha" were not. *)
Definition rankingHistory : CommandsHistory :=
  historyOf 50 [("A", 5%Z); ("B", 9%Z)] 10.

Definition candidateA (title : string) : BaseCommandEntry := menuEntry "A" title.
Definition candidateB (title : string) : BaseCommandEntry := menuEntry "B" title.
Definition candidateC : BaseCommandEntry := menuEntry "C" "zeta".
Definition candidateD : BaseCommandEntry := menuEntry "D" "alpha".

(** One command offered twice under different labels: by the active editor
    and, with a category, by the command palette menu. *)
Definition formatEditorAction : IEditorAction.t :=
  IEditorAction.mk "editor.action.formatDocument" "Format Document" "".

Definition formatMenuItem : MenuItemAction.t :=
  MenuItemAction.mk "editor.action.formatDocument"
    (ICommandAction.mk "editor.action.formatDocument"
       (PlainString "Format Document") (Some (PlainString "Source"))).

Definition formatWorkbench : Workbench :=
  {| getSupportedActions := Some [formatEditorAction];
     commandPaletteMenu := [("", [IsMenuItemAction formatMenuItem])] |}.

Definition formatHistory : CommandsHistory :=
  historyOf 50 [("editor.action.formatDocument", 5%Z)] 6.

(** * Properties *)

(** ** Entries *)

Lemma newBaseCommandEntry_fresh commandId keybinding label alias highlights action :
  let e := newBaseCommandEntry commandId keybinding label alias highlights action in
  getGroupLabel e = None ∧ getDescription e = None ∧
  getSortLabel e = toLowerCase label.
Proof. done. Qed.

(** C9: an entry whose alias is the same string as its label treats the
    alias as absent.  Whatever highlights were computed for the alias, the
    detail of the entry is unset and its detail highlights are dropped; the
    label and its highlights are kept. *)
Theorem alias_equal_to_label_is_absent (commandId : string)
    (keybinding : option ResolvedKeybinding) (label : string)
    (highlights : Highlights) (action : EntryAction) :
  let e := newBaseCommandEntry commandId keybinding label (Some label)
             highlights action in
  getDetail e = None ∧ detailHighlights e = None ∧
  getLabel e = label ∧ labelHighlights e = hlLabel highlights.
Proof.
  cbn. unfold getDetail, getLabel. cbn.
  rewrite bool_decide_eq_false_2 by (intros H; by apply H).
  done.
Qed.

(** On the editor path the alias of the action reaches the constructor
    unchanged, so an action whose alias repeats its label yields an entry
    without detail even when the alias matched the query. *)
Lemma editor_alias_equal_to_label wordFilter isDefaultVariant lookupKeybinding
    searchValue action e :
  IEditorAction.alias action = IEditorAction.label action →
  e ∈ editorActionToEntries wordFilter isDefaultVariant lookupKeybinding
        searchValue action →
  getDetail e = None ∧ detailHighlights e = None.
Proof.
  intros Halias. unfold editorActionToEntries.
  repeat case_match; try (by intros ?%elem_of_nil).
  all: intros ->%list_elem_of_singleton; cbn; simplify_eq.
  all: try rewrite Halias.
  all: try rewrite bool_decide_eq_false_2 by (intros H'; by apply H').
  all: by repeat case_match.
Qed.

(** ** Cancellation *)

(** C10: a query whose token is already cancelled when the pipeline is
    entered returns no entries and leaves the whole state as it was: the
    remembered input, the history, the registered disposables and the
    start-up flag. *)
Theorem cancelled_query_changes_nothing
    (localeCompare : string → string → Z)
    (wordFilter : string → string → option (list IHighlight))
    (isDefaultVariant : bool)
    (lookupKeybinding : string → option ResolvedKeybinding)
    (wb : Workbench) (st : HandlerState) (searchValue : string) :
  doGetResults localeCompare wordFilter isDefaultVariant lookupKeybinding
    wb st searchValue {| isCancellationRequested := true |} = ([], st).
Proof. reflexivity. Qed.

(** Entered through [getResults], a cancelled query changes at most the
    flag of the start-up wait, which [getResults] sets before the pipeline
    is entered. *)
Lemma cancelled_getResults localeCompare wordFilter isDefaultVariant
    lookupKeybinding wb st searchValue :
  let r := (getResults localeCompare wordFilter isDefaultVariant lookupKeybinding
              wb st searchValue {| isCancellationRequested := true |}).2 in
  r.1 = [] ∧
  commandsHistory r.2 = commandsHistory st ∧
  lastCommandPaletteInput r.2 = lastCommandPaletteInput st ∧
  disposeOnClose r.2 = disposeOnClose st ∧
  waitedForExtensionsRegistered r.2 = true.
Proof.
  unfold getResults. destruct (waitedForExtensionsRegistered st) eqn:Hflag;
    cbn; by rewrite ?Hflag.
Qed.

(** A query that is not cancelled does record its trimmed text. *)
Lemma query_records_trimmed_input localeCompare wordFilter isDefaultVariant
    lookupKeybinding wb st searchValue :
  lastCommandPaletteInput
    (doGetResults localeCompare wordFilter isDefaultVariant lookupKeybinding
       wb st searchValue notCancelled).2 = Some (trim searchValue).
Proof. reflexivity. Qed.

(** ** Removal of duplicates *)

Section distinct_facts.
Context {A : Type} (keyFn : A → string).

Lemma distinctFrom_app seen (l1 l2 : list A) :
  distinctFrom keyFn seen (l1 ++ l2) =
  distinctFrom keyFn seen l1
    ++ distinctFrom keyFn (list_to_set (keyFn <$> l1) ∪ seen) l2.
Proof.
  revert seen. induction l1 as [|x l1 IH]; intros seen; cbn.
  - f_equal. set_solver.
  - case_decide.
    + rewrite IH. do 2 f_equal. set_solver.
    + cbn. rewrite IH. do 3 f_equal. set_solver.
Qed.

(** The element at a position survives exactly when no element before it
    has the same key; what precedes it is treated independently. *)
Lemma distinct_at (l1 : list A) (x : A) (l2 : list A) :
  distinct (l1 ++ x :: l2) keyFn =
  distinct l1 keyFn
    ++ (if decide (keyFn x ∈ keyFn <$> l1) then [] else [x])
    ++ distinctFrom keyFn (list_to_set (keyFn <$> (l1 ++ [x]))) l2.
Proof.
  unfold distinct. rewrite distinctFrom_app. f_equal. cbn.
  rewrite fmap_app, list_to_set_app_L. cbn.
  destruct (decide (keyFn x ∈ list_to_set (keyFn <$> l1) ∪ (∅ : gset string)))
    as [Hin|Hin]; case_decide; try set_solver.
  - cbn. f_equal. set_solver.
  - cbn. do 2 f_equal. set_solver.
Qed.

Lemma distinctFrom_sublist seen (l : list A) :
  distinctFrom keyFn seen l `sublist_of` l.
Proof.
  revert seen. induction l as [|x l IH]; intros seen; cbn; [done|].
  case_decide; [by apply sublist_cons|by apply sublist_skip].
Qed.

(** The survivors keep the order in which they were first seen. *)
Lemma distinct_sublist (l : list A) : distinct l keyFn `sublist_of` l.
Proof. apply distinctFrom_sublist. Qed.

Lemma distinctFrom_keys seen (l : list A) :
  NoDup (keyFn <$> distinctFrom keyFn seen l) ∧
  ∀ k, k ∈ keyFn <$> distinctFrom keyFn seen l ↔ k ∈ keyFn <$> l ∧ k ∉ seen.
Proof.
  revert seen. induction l as [|x l IH]; intros seen; cbn.
  - split; [constructor|]. set_solver.
  - case_decide as Hx.
    + destruct (IH seen) as [Hnd Hk]. split; [done|].
      intros k. rewrite Hk. set_solver.
    + destruct (IH ({[keyFn x]} ∪ seen)) as [Hnd Hk]. split.
      * cbn. constructor; [|done]. rewrite Hk. set_solver.
      * intros k. cbn. rewrite elem_of_cons, Hk.
        destruct (decide (k = keyFn x)); set_solver.
Qed.

(** No two survivors share a key, and every key of the input is still
    there. *)
Lemma distinct_keys (l : list A) :
  NoDup (keyFn <$> distinct l keyFn) ∧
  ∀ k, k ∈ keyFn <$> distinct l keyFn ↔ k ∈ keyFn <$> l.
Proof.
  destruct (distinctFrom_keys ∅ l) as [Hnd Hk]. split; [done|].
  intros k. unfold distinct. rewrite Hk. set_solver.
Qed.
End distinct_facts.

(** C4: the key handed to [distinct] is the concatenation of the label, the
    group label and the command identifier, without separators.  The two
    menu items below differ in label and in identifier, yet their keys are
    the same string, and the second one is removed as a duplicate of the
    first: by [distinct] itself, and from the result of a query. *)
Theorem distinct_triples_collapse :
  let first := menuEntry "undefinedStatus" "Show" in
  let second := menuEntry "Status" "Showundefined" in
  (getLabel first, getGroupLabel first, getCommandId first)
    ≠ (getLabel second, getGroupLabel second, getCommandId second) ∧
  duplicateKey first = duplicateKey second ∧
  distinct [first; second] duplicateKey = [first] ∧
  (doGetResults codeUnitCompare matchEverything true noKeybinding
     (menuOf [menuItem "undefinedStatus" "Show"; menuItem "Status" "Showundefined"])
     (stateOf (historyOf 50 [] 1)) "" notCancelled).1 = [first].
Proof. cbn zeta. split_and!; [discriminate|by vm_compute..]. Qed.

(** ** Label clashes *)

Lemma handleLabelClashes_length commandLabels entries :
  length (handleLabelClashes commandLabels entries) = length entries.
Proof.
  revert commandLabels. induction entries as [|e es IH]; intros seen; cbn; [done|].
  case_decide; cbn; by rewrite IH.
Qed.

(** The entry at a position gets its description exactly when its label
    string is in the initial set or is the label string of an entry before
    it; nothing else of it changes. *)
Lemma handleLabelClashes_lookup commandLabels entries i e :
  entries !! i = Some e →
  handleLabelClashes commandLabels entries !! i =
  Some (if decide (commandLabel e ∈ commandLabels
                   ∨ commandLabel e ∈ commandLabel <$> take i entries)
        then setDescription (getCommandId e) e else e).
Proof.
  revert commandLabels i.
  induction entries as [|x es IH]; intros seen i Hi; [done|].
  destruct i as [|i]; cbn in Hi |- *.
  - simplify_eq. repeat case_decide; try done; exfalso; set_solver.
  - case_decide as Hx; cbn; rewrite (IH _ _ Hi); f_equal; clear IH Hi.
    + repeat case_decide; try done; exfalso;
        generalize dependent (commandLabel e);
        generalize dependent (commandLabel x); set_solver.
    + repeat case_decide; try done; exfalso;
        generalize dependent (commandLabel e);
        generalize dependent (commandLabel x); set_solver.
Qed.

Lemma string_length_append (s t : string) :
  String.length (s +:+ t) = (String.length s + String.length t)%nat.
Proof. induction s as [|c s IH]; simpl; [done|by f_equal]. Qed.

Lemma append_inv_tail (s1 s2 t : string) : s1 +:+ t = s2 +:+ t → s1 = s2.
Proof.
  intros H.
  assert (Hlen : String.length s1 = String.length s2).
  { apply (f_equal String.length) in H.
    rewrite !string_length_append in H. lia. }
  revert s2 H Hlen. induction s1 as [|c s1 IH]; intros [|d s2] H Hlen;
    try done.
  cbn in *. simplify_eq. f_equal. apply IH; [done|lia].
Qed.

(** For entries that have no group label yet, as all entries have at this
    stage, equal label strings mean equal pairs of label and group label. *)
Lemma commandLabel_pair (e : BaseCommandEntry) (es : list BaseCommandEntry) :
  getGroupLabel e = None →
  Forall (λ x, getGroupLabel x = None) es →
  commandLabel e ∈ commandLabel <$> es ↔
  (getLabel e, getGroupLabel e) ∈ (λ x, (getLabel x, getGroupLabel x)) <$> es.
Proof.
  intros He Hes. rewrite !list_elem_of_fmap. split.
  - intros (x & Hx & Hin). exists x. split; [|done].
    rewrite Forall_forall in Hes. specialize (Hes x Hin).
    unfold commandLabel in Hx. rewrite He, Hes in *. cbn in Hx.
    by apply append_inv_tail in Hx as ->.
  - intros (x & Hx & Hin). exists x. split; [|done].
    unfold commandLabel. injection Hx as H1 H2. by rewrite H1, H2.
Qed.

(** C2, as the code has it: among the entries that share a label and a
    group label, every one except the first seen gets its own command
    identifier as description; the first seen one, like an entry whose
    label is unique, keeps its description unset.  The entries are those of
    the disambiguation stage: fresh from their constructor, without group
    label and without description. *)
Theorem label_clash_marks_all_but_first (entries : list BaseCommandEntry) :
  Forall (λ e, getGroupLabel e = None ∧ getDescription e = None) entries →
  let out := handleLabelClashes ∅ entries in
  length out = length entries ∧
  ∀ i e, entries !! i = Some e →
    let clashes :=
      bool_decide ((getLabel e, getGroupLabel e)
                     ∈ (λ x, (getLabel x, getGroupLabel x)) <$> take i entries) in
    out !! i = Some (if clashes then setDescription (getCommandId e) e else e) ∧
    getDescription <$> out !! i =
      Some (if clashes then Some (getCommandId e) else None).
Proof.
  intros Hfresh out. split; [apply handleLabelClashes_length|].
  intros i e Hi clashes.
  assert (He : getGroupLabel e = None ∧ getDescription e = None).
  { rewrite Forall_forall in Hfresh. apply Hfresh.
    by eapply list_elem_of_lookup_2. }
  assert (Hes : Forall (λ x, getGroupLabel x = None) (take i entries)).
  { apply Forall_take. eapply Forall_impl; [exact Hfresh|]. by intros ? [? _]. }
  assert (Hout : out !! i =
            Some (if clashes then setDescription (getCommandId e) e else e)).
  { unfold out. rewrite (handleLabelClashes_lookup _ _ _ _ Hi). f_equal.
    unfold clashes. destruct He as [He _].
    pose proof (commandLabel_pair e (take i entries) He Hes) as Hiff.
    case_decide as Hd; case_bool_decide as Hb; try done.
    - destruct Hd as [Hd|Hd]; [set_solver|]. by apply Hiff in Hd.
    - destruct Hd. right. by apply Hiff. }
  split; [done|]. rewrite Hout. cbn. destruct clashes; [done|].
  by destruct He as [_ ->].
Qed.

Lemma label_clash_marks_all_but_first_witness :
  let entries := [menuEntry "file.save" "Save"; menuEntry "custom.save" "Save";
                  menuEntry "file.open" "Open"] in
  Forall (λ e, getGroupLabel e = None ∧ getDescription e = None) entries ∧
  getDescription <$> handleLabelClashes ∅ entries !! 1%nat
    = Some (Some "custom.save").
Proof.
  intros entries.
  assert (Hfresh : Forall (λ e, getGroupLabel e = None ∧ getDescription e = None)
                     entries).
  { unfold entries. repeat constructor. }
  split; [exact Hfresh|].
  destruct (label_clash_marks_all_but_first entries Hfresh) as [_ H].
  destruct (H 1%nat (menuEntry "custom.save" "Save") eq_refl) as [_ Hd].
  exact Hd.
Defined.

(** The claim of C2 as stated fails on its own example: of the two entries
    labelled "Save", the first seen one is in a group of two and still has
    no description after the stage. *)
Lemma first_seen_clash_has_no_description :
  let saveFile := menuEntry "file.save" "Save" in
  let saveCustom := menuEntry "custom.save" "Save" in
  let out := handleLabelClashes ∅ (distinct [saveFile; saveCustom] duplicateKey) in
  (getLabel saveFile, getGroupLabel saveFile)
    = (getLabel saveCustom, getGroupLabel saveCustom) ∧
  length out = 2%nat ∧
  getCommandId <$> out !! 0%nat = Some "file.save" ∧
  getDescription <$> out !! 0%nat ≠ Some (Some "file.save") ∧
  getDescription <$> out !! 0%nat = Some None.
Proof. cbn zeta. split_and!; [done|by vm_compute..| |by vm_compute].
  vm_compute. discriminate. Qed.

(** ** Group markers *)

Lemma markOtherCommands_length peekCounter entries :
  length (markOtherCommands peekCounter entries) = length entries.
Proof.
  induction entries as [|e es IH]; cbn; [done|].
  case_match; cbn; by rewrite ?IH.
Qed.

(** The loop changes one entry at most: the first one without a counter. *)
Lemma markOtherCommands_lookup peekCounter entries i e :
  entries !! i = Some e →
  markOtherCommands peekCounter entries !! i =
  Some (if negb (hasCounter peekCounter e)
           && forallb (hasCounter peekCounter) (take i entries)
        then setGroupLabel localize_morecCommands (setShowBorder true e)
        else e).
Proof.
  revert i. induction entries as [|x es IH]; intros i Hi; [done|].
  destruct i as [|i]; cbn in Hi |- *.
  - simplify_eq. rewrite andb_true_r. by destruct (hasCounter peekCounter e).
  - destruct (hasCounter peekCounter x) eqn:Hx; cbn.
    + by apply IH.
    + by rewrite Hi, andb_false_r.
Qed.

Lemma introduceGroupMarkers_length peekCounter entries :
  length (introduceGroupMarkers peekCounter entries) = length entries.
Proof.
  destruct entries as [|e es]; cbn; [done|].
  case_match; cbn; by rewrite ?markOtherCommands_length.
Qed.

(** C3, as the code has it: when the first entry has a counter, it alone is
    labelled "recently used"; the entries after it that have a counter keep
    whatever group label they had; the first entry without a counter is
    labelled "other commands" and gets the border, and nothing after it is
    touched.  When the first entry has no counter, and so when no entry has
    one, the list is returned as it is. *)
Theorem group_markers_at_the_two_boundaries
    (peekCounter : string → option Z) (entries : list BaseCommandEntry) :
  let out := introduceGroupMarkers peekCounter entries in
  length out = length entries ∧
  (∀ first, head entries = Some first →
     hasCounter peekCounter first = true →
     ∀ i e, entries !! i = Some e →
       out !! i =
       Some (if bool_decide (i = 0%nat) then setGroupLabel localize_recentlyUsed e
             else if negb (hasCounter peekCounter e)
                     && forallb (hasCounter peekCounter) (take i entries)
             then setGroupLabel localize_morecCommands (setShowBorder true e)
             else e)) ∧
  (∀ first, head entries = Some first →
     hasCounter peekCounter first = false → out = entries) ∧
  (Forall (λ e, hasCounter peekCounter e = false) entries → out = entries).
Proof.
  intros out. split_and!.
  - apply introduceGroupMarkers_length.
  - intros first Hhead Hfirst i e Hi. unfold out.
    destruct entries as [|x rest]; [done|]. cbn in Hhead. simplify_eq.
    cbn. rewrite Hfirst. destruct i as [|i]; cbn in Hi |- *.
    + by simplify_eq.
    + rewrite Hfirst. cbn. by apply markOtherCommands_lookup.
  - intros first Hhead Hfirst. unfold out.
    destruct entries as [|x rest]; [done|]. cbn in Hhead. simplify_eq.
    cbn. by rewrite Hfirst.
  - intros Hnone. unfold out. destruct entries as [|x rest]; [done|].
    apply Forall_cons_1 in Hnone as [Hx _]. cbn. by rewrite Hx.
Qed.

Lemma group_markers_at_the_two_boundaries_witness :
  let peekCounter := λ id, peek id rankingHistory in
  let entries := [candidateB "b"; candidateA "a"; candidateC; candidateD] in
  head entries = Some (candidateB "b") ∧
  hasCounter peekCounter (candidateB "b") = true ∧
  getGroupLabel <$> introduceGroupMarkers peekCounter entries
    = [Some "recently used"; None; Some "other commands"; None] ∧
  showBorder <$> introduceGroupMarkers peekCounter entries
    = [false; false; true; false].
Proof.
  intros peekCounter entries.
  destruct (group_markers_at_the_two_boundaries peekCounter entries)
    as (Hlen & Hmark & _ & _).
  assert (Hhead : head entries = Some (candidateB "b")) by reflexivity.
  assert (Hfirst : hasCounter peekCounter (candidateB "b") = true)
    by reflexivity.
  split_and!; [exact Hhead|exact Hfirst|..].
  - apply list_eq. intros [|[|[|[|i]]]].
    + rewrite list_lookup_fmap, (Hmark _ Hhead Hfirst 0%nat _ eq_refl). reflexivity.
    + rewrite list_lookup_fmap, (Hmark _ Hhead Hfirst 1%nat _ eq_refl). reflexivity.
    + rewrite list_lookup_fmap, (Hmark _ Hhead Hfirst 2%nat _ eq_refl). reflexivity.
    + rewrite list_lookup_fmap, (Hmark _ Hhead Hfirst 3%nat _ eq_refl). reflexivity.
    + rewrite lookup_ge_None_2; [done|].
      rewrite length_fmap, Hlen. cbn. lia.
  - reflexivity.
Defined.

(** The claim of C3 as stated fails on the ranked list [B; A; C] of the
    spec's own example: [A] follows the first entry and has a counter, and
    it carries no group label after the stage. *)
Lemma later_recent_entry_gets_no_label :
  let peekCounter := λ id, peek id rankingHistory in
  let ranked := rankEntries codeUnitCompare rankingHistory
                  [candidateA "a"; candidateB "b"; candidateC] in
  let out := introduceGroupMarkers peekCounter ranked in
  getCommandId <$> ranked = ["B"; "A"; "C"] ∧
  hasCounter peekCounter (candidateA "a") = true ∧
  getCommandId <$> out !! 1%nat = Some "A" ∧
  getGroupLabel <$> out !! 1%nat ≠ Some (Some "recently used") ∧
  getGroupLabel <$> out !! 1%nat = Some None.
Proof.
  cbn zeta. split_and!; [by vm_compute..| |by vm_compute].
  vm_compute. discriminate.
Qed.

(** ** The sort *)

Section sort_facts.
Context {A : Type} (compareFn : A → A → Z).

Lemma insertSorted_Permutation (x : A) (l : list A) :
  insertSorted compareFn x l ≡ₚ x :: l.
Proof.
  induction l as [|y l IH]; cbn; [done|].
  case_match; [done|]. rewrite IH. apply Permutation_swap.
Qed.

Lemma sort_Permutation (l : list A) : sort compareFn l ≡ₚ l.
Proof.
  induction l as [|x l IH]; cbn; [done|].
  fold (sort compareFn l). by rewrite insertSorted_Permutation, IH.
Qed.

Lemma sort_pair (a b : A) :
  sort compareFn [a; b] = if (compareFn a b <=? 0)%Z then [a; b] else [b; a].
Proof. reflexivity. Qed.

Lemma insertSorted_Sorted (x : A) (l : list A) :
  Forall (agreesWith compareFn x) l →
  Sorted (notAfter compareFn) l →
  Sorted (notAfter compareFn) (insertSorted compareFn x l).
Proof.
  intros Hx Hl. induction Hl as [|y l Hl IH Hhd]; cbn; [by repeat constructor|].
  apply Forall_cons_1 in Hx as [Hxy Hx].
  destruct (Z.leb_spec (compareFn x y) 0) as [Hle|Hgt].
  - constructor; [by constructor|by constructor].
  - constructor; [by apply IH|].
    destruct Hhd as [|z l Hyz]; cbn.
    + constructor. by apply Hxy.
    + case_match; constructor; [by apply Hxy|done].
Qed.

Lemma sort_Sorted_pairs (l : list A) :
  ForallOrdPairs (agreesWith compareFn) l →
  Sorted (notAfter compareFn) (sort compareFn l).
Proof.
  induction 1 as [|x l Hx Hl IH]; cbn; [constructor|].
  fold (sort compareFn l). apply insertSorted_Sorted; [|done].
  apply Forall_forall. intros y Hy. rewrite Forall_forall in Hx.
  apply Hx. by rewrite <-(sort_Permutation l).
Qed.

Lemma sort_Sorted (l : list A) :
  (∀ x y, agreesWith compareFn x y) →
  Sorted (notAfter compareFn) (sort compareFn l).
Proof.
  intros Htotal. apply sort_Sorted_pairs.
  induction l as [|x l IH]; constructor; [|done].
  apply Forall_forall. intros y _. apply Htotal.
Qed.

(** Stability: the elements of a class [P] that the comparator ranks as
    ties among themselves keep their relative order. *)
Lemma insertSorted_filter_tie (P : A → bool) (x : A) (l : list A) :
  P x = true →
  Forall (λ y, P y = true → (compareFn x y ≤ 0)%Z) l →
  filter (λ y, P y = true) (insertSorted compareFn x l)
  = x :: filter (λ y, P y = true) l.
Proof.
  intros Hx. induction 1 as [|y l Hy Hl IH]; cbn [insertSorted].
  - by rewrite filter_cons_True, filter_nil.
  - destruct (Z.leb_spec (compareFn x y) 0) as [Hle|Hgt].
    + by rewrite filter_cons_True.
    + destruct (P y) eqn:HPy; [specialize (Hy eq_refl); lia|].
      rewrite !(filter_cons_False _ y) by (by rewrite HPy). exact IH.
Qed.

Lemma insertSorted_filter_other (P : A → bool) (x : A) (l : list A) :
  P x = false →
  filter (λ y, P y = true) (insertSorted compareFn x l)
  = filter (λ y, P y = true) l.
Proof.
  intros Hx. induction l as [|y l IH]; cbn [insertSorted].
  - by rewrite filter_cons_False by (by rewrite Hx).
  - case_match.
    + by rewrite filter_cons_False by (by rewrite Hx).
    + destruct (P y) eqn:HPy.
      * rewrite !(filter_cons_True _ y) by done. by rewrite IH.
      * rewrite !(filter_cons_False _ y) by (by rewrite HPy). exact IH.
Qed.

Lemma sort_stable (P : A → bool) (l : list A) :
  (∀ x y, P x = true → P y = true → (compareFn x y ≤ 0)%Z) →
  filter (λ y, P y = true) (sort compareFn l) = filter (λ y, P y = true) l.
Proof.
  intros Htie. induction l as [|x l IH]; [done|].
  unfold sort. cbn [foldr]. fold (sort compareFn l). destruct (P x) eqn:HPx.
  - rewrite insertSorted_filter_tie, filter_cons_True, IH; try done.
    apply Forall_forall. intros y _ HPy. by apply Htie.
  - rewrite insertSorted_filter_other, filter_cons_False, IH; try done.
    by rewrite HPx.
Qed.
End sort_facts.

(** ** The ranking comparator *)

Section comparator_facts.
Context (localeCompare : string → string → Z).
Context (peekCounter : string → option Z).

Local Abbreviation compareFn := (compareByRecency localeCompare peekCounter).

Lemma compare_both_counters a b ca cb :
  peekCounter (getCommandId a) = Some ca →
  peekCounter (getCommandId b) = Some cb →
  ca ≠ 0%Z → cb ≠ 0%Z →
  compareFn a b = if bool_decide (ca > cb)%Z then (-1)%Z else 1%Z.
Proof.
  intros Ha Hb Hca Hcb. unfold compareByRecency. rewrite Ha, Hb. cbn.
  by rewrite !(proj2 (Z.eqb_neq _ _)).
Qed.

Lemma compare_first_counter a b :
  hasCounter peekCounter a = true → hasCounter peekCounter b = false →
  compareFn a b = (-1)%Z.
Proof.
  unfold hasCounter, compareByRecency. intros -> ->. done.
Qed.

Lemma compare_second_counter a b :
  hasCounter peekCounter a = false → hasCounter peekCounter b = true →
  compareFn a b = 1%Z.
Proof.
  unfold hasCounter, compareByRecency. intros -> ->. done.
Qed.

Lemma compare_no_counter a b :
  hasCounter peekCounter a = false → hasCounter peekCounter b = false →
  compareFn a b = localeCompare (getSortLabel a) (getSortLabel b).
Proof.
  unfold hasCounter, compareByRecency. intros -> ->. done.
Qed.
End comparator_facts.

(** C5: the comparator on two candidates.  With two counters the candidate
    with the higher one is ranked first, whichever way round the two are
    compared or listed; a candidate with a counter is ranked before one
    without; two candidates without counters compare as their sort labels
    do, the one whose sort label collates first being ranked first, and the
    sort label of an entry is its label in lower case.  On the
    four candidates of the example, listed in any order, the ranking is
    B, A, D, C.  A recorded counter is one that the code takes as present:
    a number other than zero. *)
Theorem comparator_orders_by_recency_then_label
    (localeCompare : string → string → Z)
    (Halpha : (localeCompare "alpha" "zeta" < 0)%Z)
    (Hzeta : (0 < localeCompare "zeta" "alpha")%Z) :
  (∀ h a b ca cb,
     peek (getCommandId a) h = Some ca → peek (getCommandId b) h = Some cb →
     ca ≠ 0%Z → cb ≠ 0%Z → (ca > cb)%Z →
     (compareByRecency localeCompare (λ id, peek id h) a b < 0)%Z ∧
     (0 < compareByRecency localeCompare (λ id, peek id h) b a)%Z ∧
     rankEntries localeCompare h [a; b] = [a; b] ∧
     rankEntries localeCompare h [b; a] = [a; b]) ∧
  (∀ h a b,
     hasCounter (λ id, peek id h) a = true →
     hasCounter (λ id, peek id h) b = false →
     (compareByRecency localeCompare (λ id, peek id h) a b < 0)%Z ∧
     (0 < compareByRecency localeCompare (λ id, peek id h) b a)%Z ∧
     rankEntries localeCompare h [a; b] = [a; b] ∧
     rankEntries localeCompare h [b; a] = [a; b]) ∧
  (∀ h a b,
     hasCounter (λ id, peek id h) a = false →
     hasCounter (λ id, peek id h) b = false →
     compareByRecency localeCompare (λ id, peek id h) a b
     = localeCompare (getSortLabel a) (getSortLabel b) ∧
     ((localeCompare (getSortLabel a) (getSortLabel b) ≤ 0)%Z →
      rankEntries localeCompare h [a; b] = [a; b]) ∧
     ((0 < localeCompare (getSortLabel b) (getSortLabel a))%Z →
      rankEntries localeCompare h [b; a] = [a; b])) ∧
  (∀ commandId keybinding label alias highlights action,
     getSortLabel
       (newBaseCommandEntry commandId keybinding label alias highlights action)
     = toLowerCase label) ∧
  (∀ titleA titleB l,
     l ≡ₚ [candidateA titleA; candidateB titleB; candidateC; candidateD] →
     rankEntries localeCompare rankingHistory l
     = [candidateB titleB; candidateA titleA; candidateD; candidateC]).
Proof.
  split_and!.
  - intros h a b ca cb Ha Hb Hca Hcb Hgt.
    pose proof (compare_both_counters localeCompare (λ id, peek id h)
                  a b ca cb Ha Hb Hca Hcb) as Hab.
    pose proof (compare_both_counters localeCompare (λ id, peek id h)
                  b a cb ca Hb Ha Hcb Hca) as Hba.
    rewrite bool_decide_eq_true_2 in Hab by done.
    rewrite bool_decide_eq_false_2 in Hba by lia.
    unfold rankEntries. rewrite !sort_pair, Hab, Hba. done.
  - intros h a b Ha Hb.
    pose proof (compare_first_counter localeCompare (λ id, peek id h)
                  a b Ha Hb) as Hab.
    pose proof (compare_second_counter localeCompare (λ id, peek id h)
                  b a Hb Ha) as Hba.
    unfold rankEntries. rewrite !sort_pair, Hab, Hba. done.
  - intros h a b Ha Hb.
    pose proof (compare_no_counter localeCompare (λ id, peek id h)
                  a b Ha Hb) as Hab.
    pose proof (compare_no_counter localeCompare (λ id, peek id h)
                  b a Hb Ha) as Hba.
    split_and!; [done|..]; intros Hle; unfold rankEntries; rewrite sort_pair.
    + rewrite Hab. by rewrite (proj2 (Z.leb_le _ _) Hle).
    + rewrite Hba. by rewrite (proj2 (Z.leb_gt _ _) Hle).
  - done.
  - intros titleA titleB l Hl.
    set (cmp := compareByRecency localeCompare (λ id, peek id rankingHistory)).
    assert (HCD : (cmp candidateC candidateD <=? 0)%Z = false).
    { apply Z.leb_gt. exact Hzeta. }
    assert (HDC : (cmp candidateD candidateC <=? 0)%Z = true).
    { apply Z.leb_le. change (localeCompare "alpha" "zeta" ≤ 0)%Z. lia. }
    assert (HAB : (cmp (candidateA titleA) (candidateB titleB) <=? 0)%Z = false)
      by reflexivity.
    assert (HBA : (cmp (candidateB titleB) (candidateA titleA) <=? 0)%Z = true)
      by reflexivity.
    assert (HAC : (cmp (candidateA titleA) candidateC <=? 0)%Z = true)
      by reflexivity.
    assert (HCA : (cmp candidateC (candidateA titleA) <=? 0)%Z = false)
      by reflexivity.
    assert (HAD : (cmp (candidateA titleA) candidateD <=? 0)%Z = true)
      by reflexivity.
    assert (HDA : (cmp candidateD (candidateA titleA) <=? 0)%Z = false)
      by reflexivity.
    assert (HBC : (cmp (candidateB titleB) candidateC <=? 0)%Z = true)
      by reflexivity.
    assert (HCB : (cmp candidateC (candidateB titleB) <=? 0)%Z = false)
      by reflexivity.
    assert (HBD : (cmp (candidateB titleB) candidateD <=? 0)%Z = true)
      by reflexivity.
    assert (HDB : (cmp candidateD (candidateB titleB) <=? 0)%Z = false)
      by reflexivity.
    unfold rankEntries. fold cmp. clearbody cmp.
    symmetry in Hl. apply permutations_Permutation in Hl.
    generalize dependent (candidateA titleA). intros A.
    generalize dependent (candidateB titleB). intros B.
    generalize dependent candidateC. intros C.
    generalize dependent candidateD. intros D. intros.
    cbn in Hl. set_unfold in Hl.
    repeat destruct Hl as [->|Hl]; try done;
      unfold sort; cbn [foldr insertSorted];
      repeat (rewrite ?HAB, ?HBA, ?HAC, ?HCA, ?HAD, ?HDA, ?HBC, ?HCB, ?HBD,
                ?HDB, ?HCD, ?HDC; cbn [insertSorted]);
      reflexivity.
Qed.

(** ** The recency cache *)

Lemma StronglySorted_sublist {A} (R : relation A) (l k : list A) :
  k `sublist_of` l → StronglySorted R l → StronglySorted R k.
Proof.
  induction 1 as [|x k l Hsub IH|x k l Hsub IH]; intros Hl; [done|..].
  - apply StronglySorted_cons in Hl as [Hx Hl].
    apply StronglySorted_cons. split; [|by apply IH].
    apply Forall_forall. intros y Hy. rewrite Forall_forall in Hx.
    apply Hx. by eapply elem_of_sublist.
  - apply StronglySorted_cons in Hl as [_ Hl]. by apply IH.
Qed.

Lemma Forall_sublist {A} (P : A → Prop) (l k : list A) :
  k `sublist_of` l → Forall P l → Forall P k.
Proof.
  intros Hsub Hl. apply Forall_forall. intros y Hy.
  rewrite Forall_forall in Hl. apply Hl. by eapply elem_of_sublist.
Qed.

Lemma touch_sublist (key : string) (es : list (string * Z)) :
  filter (λ e : string * Z, e.1 ≠ key) es `sublist_of` es.
Proof. apply sublist_filter. Qed.

(** A value above all the others keeps the bindings in the order of their
    values when it is put last. *)
Lemma touch_sorted key value es :
  StronglySorted olderThan es →
  Forall (λ e, (e.2 < value)%Z) es →
  StronglySorted olderThan (LRUCache.touch key value es).
Proof.
  intros Hs Hlt. unfold LRUCache.touch. apply StronglySorted_app_2.
  - intros x1 x2 Hx1 ->%list_elem_of_singleton.
    apply list_elem_of_filter in Hx1 as [_ Hx1].
    rewrite Forall_forall in Hlt. by apply Hlt.
  - eapply StronglySorted_sublist; [apply touch_sublist|done].
  - repeat constructor.
Qed.

Lemma touch_below key value es :
  Forall (λ e, (e.2 < value)%Z) es →
  Forall (λ e, (e.2 < value + 1)%Z) (LRUCache.touch key value es).
Proof.
  intros Hlt. unfold LRUCache.touch. apply Forall_app. split.
  - eapply Forall_sublist; [apply touch_sublist|].
    eapply Forall_impl; [done|]. cbn. intros; lia.
  - repeat constructor. cbn. lia.
Qed.

Lemma touch_length key value es :
  (length (LRUCache.touch key value es) ≤ S (length es))%nat.
Proof.
  unfold LRUCache.touch. rewrite length_app. cbn.
  pose proof (length_filter (λ e : string * Z, e.1 ≠ key) es). lia.
Qed.

(** What [set] leaves in the cache, and that the bindings it evicts are
    exactly those that are gone. *)
Lemma set_entries key value c :
  LRUCache.entries (LRUCache.set key value c)
  = LRUCache.trimOld (LRUCache.limit c)
      (LRUCache.touch key value (LRUCache.entries c)) ∧
  LRUCache.limit (LRUCache.set key value c) = LRUCache.limit c ∧
  LRUCache.touch key value (LRUCache.entries c)
  = LRUCache.evicted key value c ++ LRUCache.entries (LRUCache.set key value c).
Proof.
  unfold LRUCache.set, LRUCache.checkTrim, LRUCache.evicted, LRUCache.size,
    LRUCache.trimOld, LRUCache.trimmed.
  cbn [LRUCache.limit LRUCache.entries].
  set (es := LRUCache.touch key value (LRUCache.entries c)).
  destruct (Nat.ltb_spec (LRUCache.limit c) (length es)) as [Hlt|Hge];
    cbn [LRUCache.limit LRUCache.entries].
  - split_and!; [done..|]. by rewrite take_drop.
  - split_and!; [|done..].
    replace (length es - LRUCache.limit c)%nat with 0%nat by lia. done.
Qed.

Lemma set_size key value c :
  (LRUCache.size (LRUCache.set key value c) ≤ LRUCache.limit c)%nat.
Proof.
  unfold LRUCache.size. destruct (set_entries key value c) as (-> & _ & _).
  unfold LRUCache.trimOld. rewrite length_drop. lia.
Qed.

Lemma set_sublist key value c :
  LRUCache.entries (LRUCache.set key value c)
    `sublist_of` LRUCache.touch key value (LRUCache.entries c).
Proof.
  destruct (set_entries key value c) as (-> & _ & _). apply sublist_drop.
Qed.

(** In a cache that is within its limit, [set] evicts one binding at
    most. *)
Lemma evicted_at_most_one key value c :
  (LRUCache.size c ≤ LRUCache.limit c)%nat →
  (length (LRUCache.evicted key value c) ≤ 1)%nat.
Proof.
  intros Hsize. unfold LRUCache.evicted, LRUCache.trimmed.
  pose proof (touch_length key value (LRUCache.entries c)) as Hlen.
  unfold LRUCache.size in Hsize.
  case_match; cbn; [|lia]. rewrite length_take. lia.
Qed.

(** ** The history *)

Lemma push_cache commandId h c :
  cache h = Some c →
  cache (push commandId h) = Some (LRUCache.set commandId (counter h) c) ∧
  counter (push commandId h) = (counter h + 1)%Z.
Proof. intros Hc. unfold push, saveState. rewrite Hc. done. Qed.

Lemma coherent_push commandId h : coherent h → coherent (push commandId h).
Proof.
  intros (c & Hc & Hsorted & Hbelow & Hsize).
  destruct (push_cache commandId h c Hc) as [Hc' Hn].
  exists (LRUCache.set commandId (counter h) c). split_and!; [done|..].
  - eapply StronglySorted_sublist; [apply set_sublist|].
    by apply touch_sorted.
  - rewrite Hn. eapply Forall_sublist; [apply set_sublist|].
    by apply touch_below.
  - destruct (set_entries commandId (counter h) c) as (_ & -> & _).
    apply set_size.
Qed.

Lemma coherent_pushAll commandIds h : coherent h → coherent (pushAll commandIds h).
Proof.
  revert h. induction commandIds as [|k ks IH]; intros h Hh; [done|].
  cbn. apply IH. by apply coherent_push.
Qed.

Lemma pushAll_limit commandIds h c :
  cache h = Some c →
  ∃ c', cache (pushAll commandIds h) = Some c'
        ∧ LRUCache.limit c' = LRUCache.limit c.
Proof.
  revert h c. induction commandIds as [|k ks IH]; intros h c Hc; [by exists c|].
  cbn. destruct (push_cache k h c Hc) as [Hc' _].
  destruct (IH _ _ Hc') as (c'' & Hc'' & Hlim). exists c''. split; [done|].
  rewrite Hlim. by destruct (set_entries k (counter h) c) as (_ & -> & _).
Qed.

(** Whatever the state of the store, a push leaves the cache within its
    limit, and so does a load, whatever was stored. *)
Lemma push_within_limit commandId h c' :
  cache (push commandId h) = Some c' →
  is_Some (cache h) →
  (LRUCache.size c' ≤ LRUCache.limit c')%nat.
Proof.
  intros Hc' [c Hc]. destruct (push_cache commandId h c Hc) as [Hset _].
  rewrite Hset in Hc'. injection Hc' as <-.
  destruct (set_entries commandId (counter h) c) as (_ & -> & _).
  apply set_size.
Qed.

Lemma foldl_set_within_limit (c : LRUCache.t) (es : list (string * Z)) :
  (LRUCache.size c ≤ LRUCache.limit c)%nat →
  let c' := foldl (λ c entry, LRUCache.set entry.1 entry.2 c) c es in
  (LRUCache.size c' ≤ LRUCache.limit c')%nat ∧ LRUCache.limit c' = LRUCache.limit c.
Proof.
  revert c. induction es as [|[k v] es IH]; intros c Hsize; [done|]. cbn.
  destruct (set_entries k v c) as (_ & Hlim & _).
  destruct (IH (LRUCache.set k v c)) as [Hsize' Hlim'].
  - rewrite Hlim. apply set_size.
  - split; [done|]. by rewrite Hlim', Hlim.
Qed.

Lemma load_within_limit len h :
  ∃ c, cache (load len h) = Some c ∧ LRUCache.limit c = len ∧
       (LRUCache.size c ≤ len)%nat.
Proof.
  unfold load. destruct (PREF_KEY_CACHE (storage h)) as [sc|].
  - destruct (foldl_set_within_limit (LRUCache.new len) (entriesToLoad sc))
      as [Hsize Hlim]; [cbn; lia|].
    eexists. split; [done|]. split; [exact Hlim|]. by rewrite Hlim in Hsize.
  - eexists. split; [done|]. split; [done|]. cbn. lia.
Qed.

(** A history that was just cleared is coherent, and so is one that starts
    without stored state. *)
Lemma coherent_clearHistory config h : coherent (clearHistory config h).
Proof.
  unfold clearHistory, saveState. cbn. eexists. split; [done|].
  cbn. split_and!; [constructor|constructor|unfold LRUCache.size; cbn; lia].
Qed.

Lemma coherent_load_empty len h :
  PREF_KEY_CACHE (storage h) = None → coherent (load len h).
Proof.
  intros Hnone. unfold load. rewrite Hnone. eexists. split; [done|].
  cbn. split_and!; [constructor|constructor|unfold LRUCache.size; cbn; lia].
Qed.

Lemma oldest_of_sorted (present gone kept : list (string * Z)) :
  StronglySorted olderThan present →
  present = gone ++ kept →
  (length gone ≤ 1)%nat →
  ∀ e, e ∈ gone → ∀ e', e' ∈ present → (e.2 ≤ e'.2)%Z.
Proof.
  intros Hsorted -> Hlen e He e' He'.
  destruct gone as [|x [|y gone]]; cbn in Hlen; [by apply elem_of_nil in He| |lia].
  apply list_elem_of_singleton in He as ->. cbn in *.
  apply StronglySorted_cons in Hsorted as [Hx _].
  apply elem_of_cons in He' as [->|He']; [lia|].
  rewrite Forall_forall in Hx. specialize (Hx e' He'). unfold olderThan in Hx. lia.
Qed.

(** C6: from a coherent store of capacity [capacity], after any sequence of
    pushes and one more, the cache holds [capacity] bindings at most, before
    and after that push; the push evicts one binding at most, the evicted
    binding is gone from the cache, and its counter is the smallest of the
    counters present when the cache is trimmed. *)
Theorem pushes_keep_capacity_and_evict_oldest
    (h : CommandsHistory) (c0 : LRUCache.t) (capacity : nat)
    (commandIds : list string) (commandId : string) :
  coherent h →
  cache h = Some c0 →
  LRUCache.limit c0 = capacity →
  let before := pushAll commandIds h in
  let after := push commandId before in
  ∃ c c',
    cache before = Some c ∧ cache after = Some c' ∧
    (LRUCache.size c ≤ capacity)%nat ∧
    (LRUCache.size c' ≤ capacity)%nat ∧
    let present := LRUCache.touch commandId (counter before) (LRUCache.entries c) in
    let gone := LRUCache.evicted commandId (counter before) c in
    present = gone ++ LRUCache.entries c' ∧
    (length gone ≤ 1)%nat ∧
    ∀ e, e ∈ gone → ∀ e', e' ∈ present → (e.2 ≤ e'.2)%Z.
Proof.
  intros Hh Hc0 Hcap before after.
  pose proof (coherent_pushAll commandIds h Hh) as (c & Hc & Hsorted & Hbelow & Hsize).
  fold before in Hc, Hbelow.
  destruct (pushAll_limit commandIds h c0 Hc0) as (c1 & Hc1 & Hlim).
  fold before in Hc1. rewrite Hc in Hc1. injection Hc1 as <-.
  destruct (push_cache commandId before c Hc) as [Hc' _]. fold after in Hc'.
  destruct (set_entries commandId (counter before) c) as (_ & _ & Hsplit).
  exists c, (LRUCache.set commandId (counter before) c).
  split_and!; [done|done|lia| |cbn zeta; split_and!].
  - pose proof (set_size commandId (counter before) c). lia.
  - exact Hsplit.
  - by apply evicted_at_most_one.
  - eapply oldest_of_sorted; [|exact Hsplit|by apply evicted_at_most_one].
    by apply touch_sorted.
Qed.

Lemma pushes_keep_capacity_and_evict_oldest_witness :
  let h := clearHistory (Some 2%nat) (initialHistory
             {| PREF_KEY_CACHE := None; PREF_KEY_COUNTER := None |}) in
  let before := pushAll ["save"; "open"] h in
  let after := push "find" before in
  coherent h ∧
  cache h = Some (LRUCache.new 2) ∧
  cache before = Some (LRUCache.mk 2 [("save", 1%Z); ("open", 2%Z)]) ∧
  cache after = Some (LRUCache.mk 2 [("open", 2%Z); ("find", 3%Z)]) ∧
  ∃ c c',
    cache before = Some c ∧ cache after = Some c' ∧
    (LRUCache.size c ≤ 2)%nat ∧
    (LRUCache.size c' ≤ 2)%nat ∧
    let present := LRUCache.touch "find" (counter before) (LRUCache.entries c) in
    let gone := LRUCache.evicted "find" (counter before) c in
    present = gone ++ LRUCache.entries c' ∧
    (length gone ≤ 1)%nat ∧
    ∀ e, e ∈ gone → ∀ e', e' ∈ present → (e.2 ≤ e'.2)%Z.
Proof.
  intros h before after.
  assert (Hh : coherent h) by apply coherent_clearHistory.
  split_and!; [exact Hh|reflexivity..|].
  exact (pushes_keep_capacity_and_evict_oldest h (LRUCache.new 2) 2
           ["save"; "open"] "find" Hh eq_refl eq_refl).
Defined.

(** ** Loading the two encodings *)

Lemma compare_counter_total (x y : string * Z) :
  (0 < x.2 - y.2)%Z → (y.2 - x.2 ≤ 0)%Z.
Proof. lia. Qed.

Lemma olderThan_value_inj (l : list (string * Z)) (x y : string * Z) :
  StronglySorted olderThan l → x ∈ l → y ∈ l → x.2 = y.2 → x = y.
Proof.
  induction 1 as [|z l Hl IH Hz]; intros Hx Hy Heq; [by apply elem_of_nil in Hx|].
  rewrite Forall_forall in Hz. unfold olderThan in Hz.
  apply elem_of_cons in Hx as [->|Hx]; apply elem_of_cons in Hy as [->|Hy].
  - done.
  - specialize (Hz y Hy). lia.
  - specialize (Hz x Hx). lia.
  - by apply IH.
Qed.

Lemma olderThan_notAfter (l : list (string * Z)) :
  StronglySorted olderThan l →
  StronglySorted (notAfter (λ a b : string * Z, a.2 - b.2)%Z) l.
Proof.
  induction 1 as [|z l Hl IH Hz]; constructor; [done|].
  eapply Forall_impl; [exact Hz|]. unfold olderThan, notAfter. intros; lia.
Qed.

(** Sorting by counter rebuilds the recency order from any arrangement of
    the entries of a history whose counters are all different. *)
Lemma sort_by_counter_restores (history entries : list (string * Z)) :
  StronglySorted olderThan history →
  entries ≡ₚ history →
  sort (λ a b : string * Z, a.2 - b.2)%Z entries = history.
Proof.
  intros Hhist Hperm.
  set (cmp := (λ a b : string * Z, a.2 - b.2)%Z).
  assert (Htrans : Transitive (notAfter cmp)).
  { intros x y z. unfold notAfter, cmp. lia. }
  apply (StronglySorted_unique_strong (notAfter cmp)).
  - intros x1 x2 Hx1 Hx2 H12 H21.
    apply (olderThan_value_inj history); [done| |done|].
    + by rewrite <-Hperm, <-(sort_Permutation cmp entries).
    + unfold notAfter, cmp in *. lia.
  - apply Sorted_StronglySorted; [done|].
    apply sort_Sorted. intros x y. unfold agreesWith, cmp.
    apply compare_counter_total.
  - by apply olderThan_notAfter.
  - by rewrite sort_Permutation.
Qed.

Lemma push_same_recency commandId h1 h2 :
  cache h1 = cache h2 → counter h1 = counter h2 →
  cache (push commandId h1) = cache (push commandId h2) ∧
  counter (push commandId h1) = counter (push commandId h2).
Proof.
  intros Hc Hn. destruct (cache h2) as [c|] eqn:Hc2.
  - destruct (push_cache commandId h1 c Hc) as [-> ->].
    destruct (push_cache commandId h2 c Hc2) as [-> ->]. by rewrite Hn.
  - unfold push. rewrite Hc, Hc2. by split; [transitivity (@None LRUCache.t)|].
Qed.

Lemma pushAll_same_recency commandIds h1 h2 :
  cache h1 = cache h2 → counter h1 = counter h2 →
  cache (pushAll commandIds h1) = cache (pushAll commandIds h2) ∧
  counter (pushAll commandIds h1) = counter (pushAll commandIds h2).
Proof.
  revert h1 h2. induction commandIds as [|k ks IH]; intros h1 h2 Hc Hn; [done|].
  cbn. by apply IH; apply push_same_recency.
Qed.

(** C7: take a recency history, its entries from the oldest to the newest
    with their counters all different.  A process that finds it stored in
    the legacy encoding, in any arrangement and with [usesLRU] absent or
    false, and a process that finds it stored in the LRU encoding, in
    recency order, load the same cache and the same counter; after any
    sequence of pushes every peek answers the same in both, and so does the
    processing of any list of entries. *)
Theorem legacy_and_lru_encodings_load_alike
    (h : CommandsHistory) (configuredLength : nat)
    (history legacyEntries : list (string * Z)) (legacyFlag : option bool) :
  StronglySorted olderThan history →
  legacyEntries ≡ₚ history →
  default false legacyFlag = false →
  let legacy :=
    load configuredLength
      (withStoredCache
         {| usesLRU := legacyFlag; serializedEntries := legacyEntries |} h) in
  let lru :=
    load configuredLength
      (withStoredCache
         {| usesLRU := Some true; serializedEntries := history |} h) in
  cache legacy = cache lru ∧
  counter legacy = counter lru ∧
  ∀ commandIds,
    (∀ commandId,
       peek commandId (pushAll commandIds legacy)
       = peek commandId (pushAll commandIds lru)) ∧
    (∀ localeCompare entries,
       processEntries localeCompare (pushAll commandIds legacy) entries
       = processEntries localeCompare (pushAll commandIds lru) entries).
Proof.
  intros Hhist Hperm Hflag legacy lru.
  assert (Hcache : cache legacy = cache lru).
  { unfold legacy, lru, load, withStoredCache, entriesToLoad.
    cbn -[sort LRUCache.set]. rewrite Hflag.
    by rewrite (sort_by_counter_restores history). }
  assert (Hcounter : counter legacy = counter lru) by reflexivity.
  split_and!; [done..|].
  intros commandIds.
  destruct (pushAll_same_recency commandIds legacy lru Hcache Hcounter)
    as [Hc _].
  split.
  - intros commandId. unfold peek. by rewrite Hc.
  - intros localeCompare entries.
    unfold processEntries, rankEntries, peek. by rewrite Hc.
Qed.

Lemma legacy_and_lru_encodings_load_alike_witness :
  let h := initialHistory {| PREF_KEY_CACHE := None; PREF_KEY_COUNTER := Some 10%Z |} in
  let history := [("save", 3%Z); ("open", 5%Z); ("find", 9%Z)] in
  let legacyEntries := [("find", 9%Z); ("save", 3%Z); ("open", 5%Z)] in
  StronglySorted olderThan history ∧
  legacyEntries ≡ₚ history ∧
  cache (load 2 (withStoredCache
                   {| usesLRU := None; serializedEntries := legacyEntries |} h))
  = cache (load 2 (withStoredCache
                     {| usesLRU := Some true; serializedEntries := history |} h)).
Proof.
  intros h history legacyEntries.
  assert (Hhist : StronglySorted olderThan history).
  { unfold history, olderThan. repeat constructor; cbn; lia. }
  assert (Hperm : legacyEntries ≡ₚ history).
  { unfold legacyEntries, history.
    etrans; [apply Permutation_swap|]. apply Permutation_skip, Permutation_swap. }
  split_and!; [exact Hhist|exact Hperm|].
  exact (proj1 (legacy_and_lru_encodings_load_alike h 2 history legacyEntries
                  None Hhist Hperm eq_refl)).
Defined.

(** ** Consistency of the comparator *)

(** C1: the comparator answers 1 when the two counters are equal, whichever
    way round it is asked.  The two entries below come out of one query;
    they have different labels, so both pass the removal of duplicates, and
    the same command identifier, so the same counter.  Each is ranked
    strictly after the other, and an entry is ranked after itself: the
    comparator is not antisymmetric and defines no order on them. *)
Theorem equal_counters_rank_each_after_the_other
    (localeCompare : string → string → Z) :
  let fromEditor :=
    newEditorActionCommandEntry "editor.action.formatDocument" None
      "Format Document" None {| hlLabel := Some []; hlAlias := None |}
      formatEditorAction in
  let fromMenu :=
    newActionCommandEntry "editor.action.formatDocument" None
      "Source: Format Document" None {| hlLabel := Some []; hlAlias := None |}
      formatMenuItem in
  let compareFn :=
    compareByRecency localeCompare (λ id, peek id formatHistory) in
  handleLabelClashes ∅
    (distinct
       (editorActionsToEntries matchEverything true noKeybinding
          [formatEditorAction] ""
        ++ menuItemActionsToEntries matchEverything true noKeybinding
             (menuItemActions (commandPaletteMenu formatWorkbench)) "")
       duplicateKey)
  = [fromEditor; fromMenu] ∧
  fromEditor ≠ fromMenu ∧
  compareFn fromEditor fromMenu = 1%Z ∧
  compareFn fromMenu fromEditor = 1%Z ∧
  compareFn fromEditor fromEditor = 1%Z.
Proof.
  cbn zeta. split_and!; [by vm_compute|discriminate|reflexivity..].
Qed.

(** The defect is confined to equal counters.  Over entries whose truthy
    counters are pairwise different, and with a collation that is itself
    consistent, the comparator is consistent: asked both ways round it
    never ranks each of two entries after the other, and the order it
    induces is transitive. *)
Section consistent_comparator.
Context (localeCompare : string → string → Z).
Context (peekCounter : string → option Z).
Context (collation_total : ∀ s t, (0 < localeCompare s t)%Z → (localeCompare t s ≤ 0)%Z).
Context (collation_trans : ∀ s t u,
  (localeCompare s t ≤ 0)%Z → (localeCompare t u ≤ 0)%Z → (localeCompare s u ≤ 0)%Z).

Local Abbreviation compareFn := (compareByRecency localeCompare peekCounter).

Lemma compareFn_cases a b :
  (hasCounter peekCounter a = true ∧ hasCounter peekCounter b = true ∧
   ∃ ca cb, peekCounter (getCommandId a) = Some ca
            ∧ peekCounter (getCommandId b) = Some cb
            ∧ compareFn a b = if bool_decide (ca > cb)%Z then (-1)%Z else 1%Z) ∨
  (hasCounter peekCounter a = true ∧ hasCounter peekCounter b = false
   ∧ compareFn a b = (-1)%Z) ∨
  (hasCounter peekCounter a = false ∧ hasCounter peekCounter b = true
   ∧ compareFn a b = 1%Z) ∨
  (hasCounter peekCounter a = false ∧ hasCounter peekCounter b = false
   ∧ compareFn a b = localeCompare (getSortLabel a) (getSortLabel b)).
Proof.
  unfold hasCounter, compareByRecency.
  destruct (peekCounter (getCommandId a)) as [ca|] eqn:Ha;
    destruct (peekCounter (getCommandId b)) as [cb|] eqn:Hb; cbn;
    try destruct (Z.eqb_spec ca 0); try destruct (Z.eqb_spec cb 0); cbn;
    eauto 10.
Qed.

Lemma compareFn_total a b :
  peekCounter (getCommandId a) ≠ peekCounter (getCommandId b)
  ∨ hasCounter peekCounter a = false →
  (0 < compareFn a b)%Z → (compareFn b a ≤ 0)%Z.
Proof.
  intros Hdiff.
  destruct (compareFn_cases a b) as
    [(Ha & Hb & ca & cb & Hca & Hcb & ->)|[(Ha & Hb & ->)|[(Ha & Hb & ->)|(Ha & Hb & ->)]]];
  destruct (compareFn_cases b a) as
    [(Hb' & Ha' & cb' & ca' & Hcb' & Hca' & ->)|[(Hb' & Ha' & ->)|[(Hb' & Ha' & ->)|(Hb' & Ha' & ->)]]];
  try congruence; try lia.
  - simplify_eq. repeat case_bool_decide; try lia.
    destruct Hdiff as [Hdiff|Hdiff]; [|congruence].
    assert (ca = cb) by lia. congruence.
  - apply collation_total.
Qed.

Lemma compareFn_trans a b c :
  (compareFn a b ≤ 0)%Z → (compareFn b c ≤ 0)%Z → (compareFn a c ≤ 0)%Z.
Proof.
  destruct (compareFn_cases a b) as
    [(Ha & Hb & ca & cb & Hca & Hcb & ->)|[(Ha & Hb & ->)|[(Ha & Hb & ->)|(Ha & Hb & ->)]]];
  destruct (compareFn_cases b c) as
    [(Hb' & Hc & cb' & cc & Hcb' & Hcc & ->)|[(Hb' & Hc & ->)|[(Hb' & Hc & ->)|(Hb' & Hc & ->)]]];
  destruct (compareFn_cases a c) as
    [(Ha' & Hc' & ca' & cc' & Hca' & Hcc' & ->)|[(Ha' & Hc' & ->)|[(Ha' & Hc' & ->)|(Ha' & Hc' & ->)]]];
  try congruence; try lia.
  - simplify_eq. repeat case_bool_decide; lia.
  - apply collation_trans.
Qed.
End consistent_comparator.

(** ** The ranking stage *)

Section ranking_facts.
Context (localeCompare : string → string → Z).
Context (h : CommandsHistory).

Local Abbreviation peekCounter := (λ id, peek id h).
Local Abbreviation compareFn := (compareByRecency localeCompare peekCounter).

(** The ranking rearranges the entries and neither drops nor adds one. *)
Lemma rankEntries_Permutation entries :
  rankEntries localeCompare h entries ≡ₚ entries.
Proof. apply sort_Permutation. Qed.

(** When no entry that has a counter shares it with an entry further down
    the list, and the collation is consistent, the ranked list is in the
    order of the comparator. *)
Lemma rankEntries_Sorted entries :
  (∀ s t, (0 < localeCompare s t)%Z → (localeCompare t s ≤ 0)%Z) →
  ForallOrdPairs
    (λ a b, peekCounter (getCommandId a) ≠ peekCounter (getCommandId b)
            ∨ hasCounter peekCounter a = false) entries →
  Sorted (notAfter compareFn) (rankEntries localeCompare h entries).
Proof.
  intros Hcollation Hpairs. apply sort_Sorted_pairs.
  induction Hpairs as [|a l Ha Hl IH]; constructor; [|done].
  eapply Forall_impl; [exact Ha|]. intros b Hab. unfold agreesWith.
  by apply compareFn_total.
Qed.

(** Ties keep their order: the entries without a counter that have one and
    the same sort label come out of the ranking in the order in which they
    went in. *)
Lemma rankEntries_stable sortLabel entries :
  (localeCompare sortLabel sortLabel ≤ 0)%Z →
  let tied := λ e, negb (hasCounter peekCounter e)
                   && String.eqb (getSortLabel e) sortLabel in
  filter (λ e, tied e = true) (rankEntries localeCompare h entries)
  = filter (λ e, tied e = true) entries.
Proof.
  intros Hrefl tied. apply sort_stable. intros x y Hx Hy.
  unfold tied in Hx, Hy.
  apply andb_true_iff in Hx as [Hx Hlx]. apply andb_true_iff in Hy as [Hy Hly].
  apply negb_true_iff in Hx, Hy. apply String.eqb_eq in Hlx, Hly.
  by rewrite (compare_no_counter localeCompare _ x y Hx Hy), Hlx, Hly.
Qed.
End ranking_facts.

Lemma comparator_orders_by_recency_then_label_witness :
  (codeUnitCompare "alpha" "zeta" < 0)%Z ∧
  (0 < codeUnitCompare "zeta" "alpha")%Z ∧
  rankEntries codeUnitCompare rankingHistory
    [candidateA "a"; candidateB "b"; candidateC; candidateD]
  = [candidateB "b"; candidateA "a"; candidateD; candidateC].
Proof.
  assert (Halpha : (codeUnitCompare "alpha" "zeta" < 0)%Z) by (vm_compute; reflexivity).
  assert (Hzeta : (0 < codeUnitCompare "zeta" "alpha")%Z) by (vm_compute; reflexivity).
  split_and!; [exact Halpha|exact Hzeta|].
  destruct (comparator_orders_by_recency_then_label codeUnitCompare Halpha Hzeta)
    as (_ & _ & _ & _ & Hexample).
  by apply Hexample.
Defined.

(** ** Coherence of a loaded store *)

Lemma foldl_set_sorted (c : LRUCache.t) (es : list (string * Z)) :
  StronglySorted olderThan (LRUCache.entries c ++ es) →
  (LRUCache.size c ≤ LRUCache.limit c)%nat →
  let c' := foldl (λ c entry, LRUCache.set entry.1 entry.2 c) c es in
  StronglySorted olderThan (LRUCache.entries c') ∧
  LRUCache.entries c' `sublist_of` LRUCache.entries c ++ es ∧
  (LRUCache.size c' ≤ LRUCache.limit c')%nat.
Proof.
  revert c. induction es as [|[k v] es IH]; intros c Hsorted Hsize; cbn.
  - rewrite app_nil_r in *. done.
  - assert (Hsub : LRUCache.entries (LRUCache.set k v c) ++ es
                     `sublist_of` LRUCache.entries c ++ (k, v) :: es).
    { rewrite (cons_middle (k, v)), (assoc_L (++)).
      apply sublist_app; [|done].
      etrans; [apply set_sublist|]. unfold LRUCache.touch.
      apply sublist_app; [apply touch_sublist|done]. }
    destruct (IH (LRUCache.set k v c)) as (Hs' & Hsub' & Hsize').
    + by eapply StronglySorted_sublist.
    + destruct (set_entries k v c) as (_ & -> & _). apply set_size.
    + split_and!; [done| |done]. by etrans.
Qed.

(** A store is coherent after [load] when the entries are inserted in the
    order of their counters and the stored counter is above them all; this
    is what [saveState] writes from a coherent store. *)
Lemma coherent_load len h serialized :
  PREF_KEY_CACHE (storage h) = Some serialized →
  StronglySorted olderThan (entriesToLoad serialized) →
  Forall (λ e, (e.2 < default (counter h) (PREF_KEY_COUNTER (storage h)))%Z)
    (entriesToLoad serialized) →
  coherent (load len h).
Proof.
  intros Hstored Hsorted Hbelow. unfold load. rewrite Hstored.
  destruct (foldl_set_sorted (LRUCache.new len) (entriesToLoad serialized))
    as (Hs & Hsub & Hsize); [done|cbn; lia|].
  eexists. split; [done|]. cbn -[LRUCache.set]. split_and!; [done| |done].
  by eapply Forall_sublist.
Qed.

Lemma coherent_load_saved h :
  coherent h →
  ∀ len, coherent (load len (saveState h)).
Proof.
  intros (c & Hc & Hsorted & Hbelow & Hsize) len.
  eapply coherent_load.
  - unfold saveState. rewrite Hc. reflexivity.
  - done.
  - unfold saveState. rewrite Hc. done.
Qed.

(** ** Entries of a query are fresh *)

Lemma query_entries_fresh wordFilter isDefaultVariant lookupKeybinding
    wb searchValue :
  let entries :=
    editorActionsToEntries wordFilter isDefaultVariant lookupKeybinding
      (default [] (getSupportedActions wb)) searchValue
    ++ menuItemActionsToEntries wordFilter isDefaultVariant lookupKeybinding
         (menuItemActions (commandPaletteMenu wb)) searchValue in
  Forall (λ e, getGroupLabel e = None ∧ getDescription e = None)
    (distinct entries duplicateKey).
Proof.
  intros entries. eapply Forall_sublist; [apply distinct_sublist|].
  unfold entries. apply Forall_app. split; apply Forall_forall; intros e He.
  - unfold editorActionsToEntries in He.
    apply list_elem_of_bind in He as (a & He & _).
    unfold editorActionToEntries in He.
    repeat case_match; try (by apply elem_of_nil in He).
    all: by apply list_elem_of_singleton in He as ->.
  - unfold menuItemActionsToEntries in He.
    apply list_elem_of_bind in He as (a & He & _).
    unfold menuItemActionToEntries in He.
    repeat case_match; try (by apply elem_of_nil in He).
    all: by apply list_elem_of_singleton in He as ->.
Qed.

(** Legacy data is coherent once loaded, in whatever order it was stored,
    when its counters are all different and below the stored counter. *)
Lemma notAfter_olderThan (l : list (string * Z)) :
  StronglySorted (notAfter (λ a b : string * Z, a.2 - b.2)%Z) l →
  NoDup l.*2 →
  StronglySorted olderThan l.
Proof.
  induction 1 as [|z l Hl IH Hz]; intros Hnd; [constructor|].
  cbn in Hnd. apply NoDup_cons in Hnd as [Hnotin Hnd].
  constructor; [by apply IH|].
  apply Forall_forall. intros y Hy. rewrite Forall_forall in Hz.
  specialize (Hz y Hy). unfold notAfter in Hz. unfold olderThan.
  assert (z.2 ≠ y.2); [|lia].
  intros Heq. apply Hnotin. rewrite Heq. by apply list_elem_of_fmap_2.
Qed.

Lemma coherent_load_legacy len h (entries : list (string * Z)) flag :
  default false flag = false →
  PREF_KEY_CACHE (storage h)
    = Some {| usesLRU := flag; serializedEntries := entries |} →
  NoDup entries.*2 →
  Forall (λ e, (e.2 < default (counter h) (PREF_KEY_COUNTER (storage h)))%Z)
    entries →
  coherent (load len h).
Proof.
  intros Hflag Hstored Hnd Hbelow.
  set (cmp := (λ a b : string * Z, a.2 - b.2)%Z).
  assert (Hload : entriesToLoad {| usesLRU := flag; serializedEntries := entries |}
                  = sort cmp entries).
  { unfold entriesToLoad. cbn -[sort]. by rewrite Hflag. }
  eapply coherent_load; [exact Hstored|rewrite Hload..].
  - apply notAfter_olderThan.
    + apply Sorted_StronglySorted.
      * intros x y z. unfold notAfter, cmp. lia.
      * apply sort_Sorted. intros x y. unfold agreesWith, cmp. lia.
    + by rewrite (sort_Permutation cmp entries).
  - by rewrite (sort_Permutation cmp entries).
Qed.

(** ** The start-up gate *)

Section startup_gate.
Context (localeCompare : string → string → Z).
Context (wordFilter : string → string → option (list IHighlight)).
Context (isDefaultVariant : bool).
Context (lookupKeybinding : string → option ResolvedKeybinding).

Local Abbreviation getResults' :=
  (getResults localeCompare wordFilter isDefaultVariant lookupKeybinding).
Local Abbreviation doGetResults' :=
  (doGetResults localeCompare wordFilter isDefaultVariant lookupKeybinding).
Local Abbreviation handleEvent' :=
  (handleEvent localeCompare wordFilter isDefaultVariant lookupKeybinding).
Local Abbreviation awaitsOf' :=
  (awaitsOf localeCompare wordFilter isDefaultVariant lookupKeybinding).

Lemma doGetResults_keeps_flag wb st searchValue token :
  waitedForExtensionsRegistered (doGetResults' wb st searchValue token).2
  = waitedForExtensionsRegistered st.
Proof.
  unfold doGetResults. repeat case_match; reflexivity.
Qed.

Lemma getResults_sets_flag wb st searchValue token :
  waitedForExtensionsRegistered (getResults' wb st searchValue token).2.2 = true.
Proof.
  unfold getResults.
  destruct (waitedForExtensionsRegistered st) eqn:Hflag; cbn [fst snd];
    by rewrite doGetResults_keeps_flag.
Qed.

Lemma handleEvent_sets_flag st event :
  waitedForExtensionsRegistered (handleEvent' st event).2 = true.
Proof.
  destruct event as [|wb searchValue token]; [done|].
  apply getResults_sets_flag.
Qed.

Lemma awaitsOf_flag_set events st :
  waitedForExtensionsRegistered st = true →
  Forall (λ a, a = NoAwait) (awaitsOf' events st).
Proof.
  revert st. induction events as [|event events IH]; intros st Hflag;
    [by constructor|].
  cbn [awaitsOf].
  pose proof (handleEvent_sets_flag st event) as Hnext.
  destruct event as [|wb searchValue token].
  - by apply IH.
  - cbn [handleEvent fst snd] in *. constructor; [|by apply IH].
    unfold getResults. by rewrite Hflag.
Qed.

End startup_gate.


(** * Further properties *)

(** ** Lookups in the cache *)

Lemma lookup_app key (l1 l2 : list (string * Z)) :
  LRUCache.lookup key (l1 ++ l2)
  = match LRUCache.lookup key l1 with
    | Some v => Some v
    | None => LRUCache.lookup key l2
    end.
Proof.
  induction l1 as [|e l1 IH]; cbn; [done|]. by case_decide.
Qed.

Lemma lookup_None key (es : list (string * Z)) :
  LRUCache.lookup key es = None ↔ key ∉ es.*1.
Proof.
  induction es as [|e es IH]; cbn.
  - split; [intros _ ?%elem_of_nil|]; done.
  - rewrite not_elem_of_cons. case_decide; naive_solver.
Qed.

Lemma lookup_Some_elem key v (es : list (string * Z)) :
  LRUCache.lookup key es = Some v → (key, v) ∈ es.
Proof.
  induction es as [|[k w] es IH]; cbn; [done|].
  case_decide; simplify_eq/=.
  - intros [= ->]. left.
  - intros H'. right. by apply IH.
Qed.

Lemma elem_lookup_Some key v (es : list (string * Z)) :
  NoDup es.*1 → (key, v) ∈ es → LRUCache.lookup key es = Some v.
Proof.
  induction es as [|[k w] es IH]; cbn; intros Hnd Hin.
  - by apply elem_of_nil in Hin.
  - apply NoDup_cons in Hnd as [Hk Hnd].
    apply elem_of_cons in Hin as [[= -> ->]|Hin]; [by rewrite decide_True|].
    rewrite decide_False; [by apply IH|].
    intros ->. apply Hk. by apply (list_elem_of_fmap_2 fst _ (key, v)).
Qed.

Lemma lookup_without key other (es : list (string * Z)) :
  key ≠ other →
  LRUCache.lookup key (filter (λ e : string * Z, e.1 ≠ other) es)
  = LRUCache.lookup key es.
Proof.
  intros Hne. induction es as [|[k w] es IH]; [done|].
  destruct (decide (k = other)) as [->|Hk].
  - rewrite filter_cons_False by (cbn; tauto). cbn.
    by rewrite decide_False by done.
  - rewrite filter_cons_True by done. cbn. by rewrite IH.
Qed.

Lemma keys_without other (es : list (string * Z)) :
  other ∉ (filter (λ e : string * Z, e.1 ≠ other) es).*1.
Proof.
  intros (e & -> & He)%list_elem_of_fmap.
  by apply list_elem_of_filter in He as [He _].
Qed.

Lemma lookup_touch_same key value es :
  LRUCache.lookup key (LRUCache.touch key value es) = Some value.
Proof.
  unfold LRUCache.touch. rewrite lookup_app.
  rewrite (proj2 (lookup_None key _) (keys_without key es)).
  cbn. by rewrite decide_True.
Qed.

Lemma lookup_touch_other key other value es :
  key ≠ other →
  LRUCache.lookup key (LRUCache.touch other value es) = LRUCache.lookup key es.
Proof.
  intros Hne. unfold LRUCache.touch. rewrite lookup_app, lookup_without by done.
  destruct (LRUCache.lookup key es); [done|]. cbn. by rewrite decide_False.
Qed.

Lemma fmap_fst_sublist (l k : list (string * Z)) :
  k `sublist_of` l → k.*1 `sublist_of` l.*1.
Proof. intros H. by apply fmap_sublist. Qed.

Lemma NoDup_keys_sublist (l k : list (string * Z)) :
  k `sublist_of` l → NoDup l.*1 → NoDup k.*1.
Proof.
  intros H Hnd. eapply sublist_NoDup; [exact Hnd|]. by apply fmap_fst_sublist.
Qed.

Lemma touch_NoDup key value es :
  NoDup es.*1 → NoDup (LRUCache.touch key value es).*1.
Proof.
  intros Hnd. unfold LRUCache.touch. rewrite fmap_app.
  apply NoDup_app. split_and!.
  - eapply NoDup_keys_sublist; [apply touch_sublist|done].
  - intros k Hk ->%list_elem_of_singleton. by apply keys_without in Hk.
  - apply NoDup_singleton.
Qed.

Lemma set_NoDup key value c :
  NoDup (LRUCache.entries c).*1 →
  NoDup (LRUCache.entries (LRUCache.set key value c)).*1.
Proof.
  intros Hnd. eapply NoDup_keys_sublist; [apply set_sublist|].
  by apply touch_NoDup.
Qed.

(** A binding found after a [set] of another key was there before, with
    the same value. *)
Lemma peek_set_other key other value c v :
  NoDup (LRUCache.entries c).*1 →
  key ≠ other →
  LRUCache.peek key (LRUCache.set other value c) = Some v →
  LRUCache.peek key c = Some v.
Proof.
  intros Hnd Hne Hpeek. unfold LRUCache.peek in *.
  apply lookup_Some_elem in Hpeek.
  pose proof (elem_of_sublist _ _ _ Hpeek (set_sublist other value c)) as Hin.
  rewrite <-(lookup_touch_other key other value) by done.
  apply elem_lookup_Some; [by apply touch_NoDup|done].
Qed.

(** With room for one binding at least, the key that was set is found. *)
Lemma peek_set_same key value c :
  (1 ≤ LRUCache.limit c)%nat →
  LRUCache.peek key (LRUCache.set key value c) = Some value.
Proof.
  intros Hlim. unfold LRUCache.peek.
  destruct (set_entries key value c) as (-> & _ & _).
  unfold LRUCache.trimOld, LRUCache.touch.
  set (rest := filter (λ e : string * Z, e.1 ≠ key) (LRUCache.entries c)).
  rewrite length_app. cbn.
  rewrite drop_app_le by lia. rewrite lookup_app.
  assert (Hnone : LRUCache.lookup key (drop (length rest + 1 - LRUCache.limit c) rest) = None).
  { apply lookup_None. intros Hin.
    apply (keys_without key (LRUCache.entries c)).
    eapply elem_of_sublist; [exact Hin|].
    apply fmap_fst_sublist, sublist_drop. }
  rewrite Hnone. cbn. by rewrite decide_True.
Qed.

(** ** The history: pushes, peeks and restarts *)

Lemma uniqueKeys_push commandId h : uniqueKeys h → uniqueKeys (push commandId h).
Proof.
  intros Hu c' Hc'. destruct (cache h) as [c|] eqn:Hc.
  - destruct (push_cache commandId h c Hc) as [Hset _].
    rewrite Hset in Hc'. injection Hc' as <-. apply set_NoDup. by apply Hu.
  - unfold push in Hc'. rewrite Hc in Hc'. congruence.
Qed.

Lemma uniqueKeys_pushAll commandIds h :
  uniqueKeys h → uniqueKeys (pushAll commandIds h).
Proof.
  revert h. induction commandIds as [|k ks IH]; intros h Hh; [done|].
  cbn. apply IH. by apply uniqueKeys_push.
Qed.

Lemma foldl_set_NoDup (c : LRUCache.t) (es : list (string * Z)) :
  NoDup (LRUCache.entries c).*1 →
  NoDup (LRUCache.entries
           (foldl (λ c entry, LRUCache.set entry.1 entry.2 c) c es)).*1.
Proof.
  revert c. induction es as [|[k v] es IH]; intros c Hnd; [done|].
  cbn. apply IH. by apply set_NoDup.
Qed.

Lemma uniqueKeys_load len h : uniqueKeys (load len h).
Proof.
  intros c Hc. unfold load in Hc. cbn in Hc. injection Hc as <-.
  destruct (PREF_KEY_CACHE (storage h)); [|constructor].
  apply foldl_set_NoDup. constructor.
Qed.

Lemma uniqueKeys_clearHistory config h : uniqueKeys (clearHistory config h).
Proof. intros c [= <-]. constructor. Qed.

Lemma filter_keeps_all {A} (P : A → Prop) `{!∀ x, Decision (P x)} (l : list A) :
  Forall P l → filter P l = l.
Proof.
  induction 1 as [|x l Hx Hl IH]; [done|].
  by rewrite filter_cons_True, IH.
Qed.

(** Inserting bindings with new keys into a cache that has room for them
    appends them. *)
Lemma foldl_set_appends limit (acc es : list (string * Z)) :
  NoDup (acc ++ es).*1 →
  (length (acc ++ es) ≤ limit)%nat →
  foldl (λ c entry, LRUCache.set entry.1 entry.2 c) (LRUCache.mk limit acc) es
  = LRUCache.mk limit (acc ++ es).
Proof.
  revert acc. induction es as [|[k v] es IH]; intros acc Hnd Hlen; cbn.
  - by rewrite app_nil_r.
  - assert (Hset : LRUCache.set k v (LRUCache.mk limit acc)
                   = LRUCache.mk limit (acc ++ [(k, v)])).
    { unfold LRUCache.set, LRUCache.checkTrim, LRUCache.touch, LRUCache.size.
      cbn [LRUCache.limit LRUCache.entries].
      assert (Hfilter : filter (λ e : string * Z, e.1 ≠ k) acc = acc).
      { apply filter_keeps_all. apply Forall_forall. intros e He Hk.
        rewrite fmap_app in Hnd. apply NoDup_app in Hnd as (_ & Hdisj & _).
        apply (Hdisj k); [rewrite <-Hk; by apply list_elem_of_fmap_2|].
        cbn. left. }
      rewrite Hfilter.
      rewrite length_app in Hlen |- *. cbn [length] in Hlen |- *.
      destruct (Nat.ltb_spec limit (length acc + 1)); [lia|done]. }
    rewrite Hset, IH.
    + by rewrite <-(assoc_L (++)).
    + by rewrite <-(assoc_L (++)).
    + by rewrite <-(assoc_L (++)).
Qed.

Lemma load_saveState h c :
  cache h = Some c →
  NoDup (LRUCache.entries c).*1 →
  (LRUCache.size c ≤ LRUCache.limit c)%nat →
  let h' := load (LRUCache.limit c) (saveState h) in
  cache h' = Some c ∧ counter h' = counter h ∧ storage h' = storage (saveState h).
Proof.
  intros Hc Hnd Hsize. unfold saveState. rewrite Hc. unfold load, entriesToLoad.
  cbn -[sort LRUCache.set]. split_and!; [|done..]. f_equal.
  unfold LRUCache.new. rewrite foldl_set_appends; [by destruct c|done..].
Qed.

Lemma pushAll_snoc commandIds commandId h :
  pushAll (commandIds ++ [commandId]) h = push commandId (pushAll commandIds h).
Proof. unfold pushAll. by rewrite foldl_app. Qed.

Lemma peek_within_zero h c id :
  cache h = Some c → (LRUCache.size c ≤ 0)%nat → peek id h = None.
Proof.
  intros Hc Hsize. unfold peek. rewrite Hc. cbn. unfold LRUCache.peek.
  unfold LRUCache.size in Hsize. by destruct (LRUCache.entries c); [|cbn in Hsize; lia].
Qed.

Lemma foldl_set_elem (c : LRUCache.t) (es : list (string * Z)) e :
  e ∈ LRUCache.entries (foldl (λ c entry, LRUCache.set entry.1 entry.2 c) c es) →
  e ∈ LRUCache.entries c ∨ e ∈ es.
Proof.
  revert c. induction es as [|[k v] es IH]; intros c He; [by left|].
  cbn in He. apply IH in He as [He|He]; [|right; by right].
  pose proof (elem_of_sublist _ _ _ He (set_sublist k v c)) as Hin.
  unfold LRUCache.touch in Hin. apply elem_of_app in Hin as [Hin|Hin].
  - left. by apply list_elem_of_filter in Hin as [_ Hin].
  - right. apply list_elem_of_singleton in Hin as ->. left.
Qed.

(** X1: a command that is pushed into a history with room for one command
    at least is found by the next peek, under the counter the history had
    before the push; the counter of the history moves on by one. *)
Theorem pushed_command_is_peeked (h : CommandsHistory) (c : LRUCache.t)
    (commandId : string) :
  cache h = Some c →
  (1 ≤ LRUCache.limit c)%nat →
  peek commandId (push commandId h) = Some (counter h) ∧
  counter (push commandId h) = (counter h + 1)%Z.
Proof.
  intros Hc Hlim. destruct (push_cache commandId h c Hc) as [Hset Hn].
  split; [|done]. unfold peek. rewrite Hset. cbn. by apply peek_set_same.
Qed.

Lemma pushed_command_is_peeked_witness :
  let h := historyOf 2 [("save", 4%Z); ("open", 7%Z)] 8 in
  cache h = Some (LRUCache.mk 2 [("save", 4%Z); ("open", 7%Z)]) ∧
  (1 ≤ 2)%nat ∧
  peek "find" (push "find" h) = Some 8%Z ∧
  counter (push "find" h) = 9%Z.
Proof.
  intros h. split_and!; [reflexivity|lia|..];
    apply (pushed_command_is_peeked h _ "find" eq_refl); cbn; lia.
Defined.

(** X2: with the configured length 0 the history remembers nothing: after
    one push or more, every peek finds nothing, the command just pushed
    included. *)
Theorem disabled_history_remembers_nothing (h : CommandsHistory)
    (c : LRUCache.t) (commandId : string) (commandIds : list string)
    (id : string) :
  cache h = Some c →
  LRUCache.limit c = 0%nat →
  peek id (pushAll commandIds (push commandId h)) = None.
Proof.
  intros Hc Hlim.
  change (pushAll commandIds (push commandId h))
    with (pushAll (commandId :: commandIds) h).
  destruct (pushAll_limit (commandId :: commandIds) h c Hc) as (c' & Hc' & Hlim').
  apply (peek_within_zero _ c'); [done|].
  rewrite <-Hlim, <-Hlim'.
  destruct (exists_last (l := commandId :: commandIds)) as (ks & k & Hks); [done|].
  assert (Hks' : commandId :: commandIds = ks ++ [k]) by exact Hks.
  rewrite Hks', pushAll_snoc in Hc'.
  apply (push_within_limit k (pushAll ks h)); [done|].
  destruct (pushAll_limit ks h c Hc) as (c'' & -> & _). by eexists.
Qed.

Lemma disabled_history_remembers_nothing_witness :
  let h := clearHistory (Some 0%nat)
             (initialHistory {| PREF_KEY_CACHE := None; PREF_KEY_COUNTER := None |}) in
  cache h = Some (LRUCache.new 0) ∧
  LRUCache.limit (LRUCache.new 0) = 0%nat ∧
  peek "save" (pushAll ["open"; "save"] (push "save" h)) = None.
Proof.
  intros h. split_and!; [reflexivity..|].
  exact (disabled_history_remembers_nothing h (LRUCache.new 0) "save"
           ["open"; "save"] "save" eq_refl eq_refl).
Defined.

Lemma set_keeps_all key value c :
  (length (LRUCache.touch key value (LRUCache.entries c)) ≤ LRUCache.limit c)%nat →
  LRUCache.entries (LRUCache.set key value c)
  = LRUCache.touch key value (LRUCache.entries c).
Proof.
  intros Hlen. destruct (set_entries key value c) as (-> & _ & _).
  unfold LRUCache.trimOld.
  by replace (length (LRUCache.touch key value (LRUCache.entries c))
              - LRUCache.limit c)%nat with 0%nat by lia.
Qed.

Lemma touch_present_length key value es :
  is_Some (LRUCache.lookup key es) →
  (length (LRUCache.touch key value es) ≤ length es)%nat.
Proof.
  intros [v Hv%lookup_Some_elem]. unfold LRUCache.touch.
  rewrite length_app. cbn.
  pose proof (length_filter_lt (λ e : string * Z, e.1 ≠ key) es (key, v) Hv) as Hlt.
  cbn in Hlt. specialize (Hlt ltac:(tauto)). lia.
Qed.

(** X3: a push never changes the counter of another command.  A counter
    found for another command after the push is the one it had before; and
    when the pushed command was in the history already, or the history had
    room left, every other command keeps its counter: nothing is
    evicted. *)
Theorem push_leaves_other_counters (h : CommandsHistory) (c : LRUCache.t)
    (commandId other : string) :
  uniqueKeys h →
  cache h = Some c →
  other ≠ commandId →
  (∀ v, peek other (push commandId h) = Some v → peek other h = Some v) ∧
  ((is_Some (peek commandId h) ∧ (LRUCache.size c ≤ LRUCache.limit c)%nat)
   ∨ (LRUCache.size c < LRUCache.limit c)%nat →
   peek other (push commandId h) = peek other h).
Proof.
  intros Hu Hc Hne. destruct (push_cache commandId h c Hc) as [Hset _].
  unfold peek. rewrite Hset, Hc. cbn. split.
  - intros v. apply peek_set_other; [by apply Hu|done].
  - intros Hroom. unfold LRUCache.peek. rewrite set_keeps_all.
    + by apply lookup_touch_other.
    + destruct Hroom as [[Hin Hsize]|Hsize].
      * pose proof (touch_present_length commandId (counter h) _ Hin).
        unfold LRUCache.size in Hsize. lia.
      * pose proof (touch_length commandId (counter h) (LRUCache.entries c)).
        unfold LRUCache.size in Hsize. lia.
Qed.

Lemma push_leaves_other_counters_witness :
  let h := historyOf 2 [("save", 4%Z); ("open", 7%Z)] 8 in
  uniqueKeys h ∧
  "open" ≠ "save" ∧
  peek "open" (push "save" h) = peek "open" h.
Proof.
  intros h.
  assert (Hu : uniqueKeys h).
  { intros c [= <-]. cbn. repeat constructor; set_solver. }
  assert (Hne : "open" ≠ "save") by discriminate.
  split_and!; [exact Hu|exact Hne|].
  destruct (push_leaves_other_counters h _ "save" "open" Hu eq_refl Hne)
    as [_ Hsame].
  apply Hsame. left. split; [by eexists|cbn; lia].
Defined.

(** X4: what a push saves is what a restart loads.  A process that
    constructs its history from the storage right after a push, with the
    same configured length, has the cache and the counter that the pushing
    process has. *)
Theorem restart_after_push_restores_history (h : CommandsHistory)
    (c : LRUCache.t) (commandId : string) :
  uniqueKeys h →
  cache h = Some c →
  let pushed := push commandId h in
  let restarted := load (LRUCache.limit c) pushed in
  cache restarted = cache pushed ∧ counter restarted = counter pushed.
Proof.
  intros Hu Hc pushed restarted.
  destruct (push_cache commandId h c Hc) as [Hset Hn]. fold pushed in Hset, Hn.
  assert (Hsaved : pushed = saveState pushed).
  { unfold pushed, push. rewrite Hc. unfold saveState. cbn. done. }
  destruct (set_entries commandId (counter h) c) as (_ & Hlim & _).
  destruct (load_saveState pushed _ Hset) as (Hcache & Hcounter & _).
  - apply (uniqueKeys_push commandId h Hu). exact Hset.
  - rewrite Hlim. apply set_size.
  - unfold restarted. rewrite Hlim, <-Hsaved in Hcache, Hcounter.
    by rewrite Hcache, Hcounter.
Qed.

Lemma restart_after_push_restores_history_witness :
  let h := historyOf 2 [("save", 4%Z); ("open", 7%Z)] 8 in
  uniqueKeys h ∧
  cache (load 2 (push "find" h)) = cache (push "find" h) ∧
  counter (load 2 (push "find" h)) = counter (push "find" h).
Proof.
  intros h.
  assert (Hu : uniqueKeys h).
  { intros c [= <-]. cbn. repeat constructor; set_solver. }
  split; [exact Hu|].
  exact (restart_after_push_restores_history h _ "find" Hu eq_refl).
Defined.

(** X5: a load never holds more than the configured length and never
    invents a binding: whatever the storage returns, the cache has the
    configured length as limit, is within it, and every binding in it is an
    entry of the stored cache; the counter is the stored one, or stays what
    it was when none is stored. *)
Theorem load_holds_stored_entries_within_length (len : nat) (h : CommandsHistory) :
  ∃ c, cache (load len h) = Some c ∧
    LRUCache.limit c = len ∧
    (LRUCache.size c ≤ len)%nat ∧
    (∀ e, e ∈ LRUCache.entries c →
       ∃ sc, PREF_KEY_CACHE (storage h) = Some sc ∧ e ∈ serializedEntries sc) ∧
    counter (load len h) = default (counter h) (PREF_KEY_COUNTER (storage h)).
Proof.
  destruct (load_within_limit len h) as (c & Hc & Hlim & Hsize).
  exists c. split_and!; [done..| |done].
  intros e He. unfold load in Hc. cbn in Hc. injection Hc as <-.
  destruct (PREF_KEY_CACHE (storage h)) as [sc|]; [|by apply elem_of_nil in He].
  exists sc. split; [done|].
  apply foldl_set_elem in He as [He|He]; [by apply elem_of_nil in He|].
  unfold entriesToLoad in He. destruct (default false (usesLRU sc)); [done|].
  by rewrite sort_Permutation in He.
Qed.

Lemma setLimit_keeps_last n c :
  LRUCache.setLimit n c
  = LRUCache.mk n (drop (LRUCache.size c - n) (LRUCache.entries c)).
Proof.
  unfold LRUCache.setLimit, LRUCache.checkTrim, LRUCache.trimOld, LRUCache.size.
  cbn [LRUCache.limit LRUCache.entries].
  destruct (Nat.ltb_spec n (length (LRUCache.entries c))) as [Hlt|Hge]; [done|].
  by replace (length (LRUCache.entries c) - n)%nat with 0%nat by lia.
Qed.

(** X6: a change of the configured length keeps the most recent commands.
    The cache gets the new length as limit and holds the last bindings of
    the recency order, as many as fit; the counter is kept.  A length that
    differs from the limit is saved at once, in the LRU encoding; a length
    equal to the limit changes nothing. *)
Theorem configured_length_keeps_most_recent (n : nat) (h : CommandsHistory)
    (c : LRUCache.t) :
  cache h = Some c →
  (LRUCache.size c ≤ LRUCache.limit c)%nat →
  let h' := updateConfiguration n h in
  ∃ c', cache h' = Some c' ∧
    LRUCache.limit c' = n ∧
    LRUCache.entries c' = drop (LRUCache.size c - n) (LRUCache.entries c) ∧
    counter h' = counter h ∧
    (LRUCache.limit c ≠ n →
     storage h' =
       {| PREF_KEY_CACHE :=
            Some {| usesLRU := Some true;
                    serializedEntries := LRUCache.entries c' |};
          PREF_KEY_COUNTER := Some (counter h) |}) ∧
    (LRUCache.limit c = n → h' = h).
Proof.
  intros Hc Hsize h'. unfold h', updateConfiguration. rewrite Hc.
  case_decide as Hlim.
  - rewrite setLimit_keeps_last. unfold saveState. cbn.
    eexists. split; [done|]. cbn. by split_and!.
  - exists c. split_and!; try done.
    unfold LRUCache.size in *.
    by replace (length (LRUCache.entries c) - n)%nat with 0%nat by lia.
Qed.

Lemma configured_length_keeps_most_recent_witness :
  let h := historyOf 50 [("a", 1%Z); ("b", 2%Z); ("c", 3%Z); ("d", 4%Z); ("e", 5%Z)] 6 in
  (LRUCache.size (LRUCache.mk 50 [("a", 1%Z); ("b", 2%Z); ("c", 3%Z); ("d", 4%Z); ("e", 5%Z)]) ≤ 50)%nat ∧
  ∃ c', cache (updateConfiguration 2 h) = Some c' ∧
    LRUCache.limit c' = 2%nat ∧
    LRUCache.entries c' = [("d", 4%Z); ("e", 5%Z)].
Proof.
  intros h.
  assert (Hsize : (LRUCache.size (LRUCache.mk 50
            [("a", 1%Z); ("b", 2%Z); ("c", 3%Z); ("d", 4%Z); ("e", 5%Z)]) ≤ 50)%nat)
    by (cbn; lia).
  split; [exact Hsize|].
  destruct (configured_length_keeps_most_recent 2 h _ eq_refl Hsize)
    as (c' & Hc' & Hlim & Hentries & _).
  exists c'. split_and!; [exact Hc'|exact Hlim|exact Hentries].
Defined.

(** X7: in a coherent history the counters tell the commands apart and a
    new one is above them all: two commands never have the same counter,
    and the counter under which a push records its command is greater than
    every counter that a peek returned before the push. *)
Theorem new_counter_is_above_all_and_counters_differ (h : CommandsHistory)
    (c : LRUCache.t) :
  coherent h →
  cache h = Some c →
  (1 ≤ LRUCache.limit c)%nat →
  (∀ id1 id2 v, peek id1 h = Some v → peek id2 h = Some v → id1 = id2) ∧
  (∀ commandId id v,
     peek id h = Some v →
     ∃ n, peek commandId (push commandId h) = Some n ∧ (v < n)%Z).
Proof.
  intros (c0 & Hc0 & Hsorted & Hbelow & _) Hc Hlim.
  rewrite Hc in Hc0. injection Hc0 as <-. split.
  - intros id1 id2 v H1 H2. unfold peek in H1, H2. rewrite Hc in H1, H2.
    cbn in H1, H2. apply lookup_Some_elem in H1, H2.
    by pose proof (olderThan_value_inj _ _ _ Hsorted H1 H2 eq_refl) as [= ->].
  - intros commandId id v Hv. exists (counter h).
    destruct (push_cache commandId h c Hc) as [Hset _].
    split; [unfold peek; rewrite Hset; cbn; by apply peek_set_same|].
    unfold peek in Hv. rewrite Hc in Hv. cbn in Hv.
    apply lookup_Some_elem in Hv. rewrite Forall_forall in Hbelow.
    by apply (Hbelow (id, v)).
Qed.

Lemma new_counter_is_above_all_and_counters_differ_witness :
  let h := push "save" (clearHistory (Some 2%nat)
             (initialHistory {| PREF_KEY_CACHE := None; PREF_KEY_COUNTER := None |})) in
  coherent h ∧
  cache h = Some (LRUCache.mk 2 [("save", 1%Z)]) ∧
  (1 ≤ 2)%nat ∧
  ∃ n, peek "open" (push "open" h) = Some n ∧ (1 < n)%Z.
Proof.
  intros h.
  assert (Hh : coherent h) by apply coherent_push, coherent_clearHistory.
  split_and!; [exact Hh|reflexivity|lia|].
  destruct (new_counter_is_above_all_and_counters_differ h _ Hh eq_refl)
    as [_ Hnew]; [cbn; lia|].
  exact (Hnew "open" "save" 1%Z eq_refl).
Defined.

(** ** Used commands first *)

Lemma coherent_peek_inj h id1 id2 v :
  coherent h → peek id1 h = Some v → peek id2 h = Some v → id1 = id2.
Proof.
  intros (c & Hc & Hsorted & _) H1 H2. unfold peek in H1, H2.
  rewrite Hc in H1, H2. cbn in H1, H2. apply lookup_Some_elem in H1, H2.
  by pose proof (olderThan_value_inj _ _ _ Hsorted H1 H2 eq_refl) as [= ->].
Qed.

Lemma counter_wins localeCompare peekCounter a b :
  hasCounter peekCounter a = true → hasCounter peekCounter b = false →
  (compareByRecency localeCompare peekCounter a b ≤ 0)%Z ∧
  (0 < compareByRecency localeCompare peekCounter b a)%Z.
Proof.
  intros Ha Hb.
  rewrite (compare_first_counter localeCompare peekCounter a b Ha Hb).
  rewrite (compare_second_counter localeCompare peekCounter b a Hb Ha). lia.
Qed.

(** In a list that is sorted for a relation which never lets an element
    outside a class go before an element of the class, the elements of the
    class come first. *)
Lemma StronglySorted_class_first {A} (R : relation A) (P : A → bool) (l : list A) :
  (∀ a b, P a = false → P b = true → ¬ R a b) →
  StronglySorted R l →
  ∃ inside outside,
    l = inside ++ outside ∧
    Forall (λ e, P e = true) inside ∧
    Forall (λ e, P e = false) outside.
Proof.
  intros Hclass. induction 1 as [|x l Hl IH Hx].
  - exists [], []. by split_and!.
  - destruct IH as (inside & outside & -> & Hin & Hout).
    destruct (P x) eqn:HPx.
    + exists (x :: inside), outside. split_and!; [done| |done]. by constructor.
    + exists [], (x :: inside ++ outside). split_and!; [done|done|].
      constructor; [done|]. apply Forall_app. split; [|done].
      apply Forall_forall. intros y Hy. rewrite Forall_forall in Hin, Hx.
      exfalso. apply (Hclass x y HPx (Hin y Hy)). apply Hx.
      apply elem_of_app. by left.
Qed.

(** With a coherent history, one entry per command and a consistent,
    transitive collation the comparator is consistent on the entries, and
    the ranked list is the one sorted list that any stable sort returns. *)
Lemma rankEntries_StronglySorted localeCompare h entries :
  (∀ s t, (0 < localeCompare s t)%Z → (localeCompare t s ≤ 0)%Z) →
  (∀ s t u, (localeCompare s t ≤ 0)%Z → (localeCompare t u ≤ 0)%Z →
            (localeCompare s u ≤ 0)%Z) →
  coherent h →
  NoDup (getCommandId <$> entries) →
  StronglySorted (notAfter (compareByRecency localeCompare (λ id, peek id h)))
    (rankEntries localeCompare h entries).
Proof.
  intros Htotal Htrans Hcoh Hnd.
  apply Sorted_StronglySorted.
  { intros a b c. unfold notAfter. by apply compareFn_trans. }
  apply rankEntries_Sorted; [done|].
  induction entries as [|a es IH]; [constructor|].
  cbn in Hnd. apply NoDup_cons in Hnd as [Ha Hnd].
  constructor; [|by apply IH].
  apply Forall_forall. intros b Hb.
  destruct (peek (getCommandId a) h) as [v|] eqn:Hv.
  - left. intros Heq. apply Ha.
    rewrite (coherent_peek_inj h (getCommandId a) (getCommandId b) v Hcoh Hv)
      by done.
    by apply list_elem_of_fmap_2.
  - right. unfold hasCounter. by rewrite Hv.
Qed.

Lemma ranked_class_first localeCompare h entries :
  (∀ s t, (0 < localeCompare s t)%Z → (localeCompare t s ≤ 0)%Z) →
  (∀ s t u, (localeCompare s t ≤ 0)%Z → (localeCompare t u ≤ 0)%Z →
            (localeCompare s u ≤ 0)%Z) →
  coherent h →
  NoDup (getCommandId <$> entries) →
  ∃ recent others,
    rankEntries localeCompare h entries = recent ++ others ∧
    Forall (λ e, hasCounter (λ id, peek id h) e = true) recent ∧
    Forall (λ e, hasCounter (λ id, peek id h) e = false) others.
Proof.
  intros Htotal Htrans Hcoh Hnd.
  apply (StronglySorted_class_first
           (notAfter (compareByRecency localeCompare (λ id, peek id h)))).
  - intros a b Ha Hb. unfold notAfter.
    destruct (counter_wins localeCompare (λ id, peek id h) b a Hb Ha) as [_ Hlt].
    lia.
  - by apply rankEntries_StronglySorted.
Qed.

Lemma codeUnitCompare_total s t :
  (0 < codeUnitCompare s t)%Z → (codeUnitCompare t s ≤ 0)%Z.
Proof.
  revert t. induction s as [|x s IH]; intros [|y t]; cbn; try lia.
  rewrite (Nat.compare_antisym (nat_of_ascii x) (nat_of_ascii y)).
  destruct (nat_of_ascii x ?= nat_of_ascii y); cbn; try lia. apply IH.
Qed.

Lemma codeUnitCompare_trans s t u :
  (codeUnitCompare s t ≤ 0)%Z → (codeUnitCompare t u ≤ 0)%Z →
  (codeUnitCompare s u ≤ 0)%Z.
Proof.
  revert t u. induction s as [|x s IH]; intros [|y t] [|z u]; cbn; try lia.
  destruct (Nat.compare_spec (nat_of_ascii x) (nat_of_ascii y)) as [Hxy|Hxy|Hxy];
    destruct (Nat.compare_spec (nat_of_ascii y) (nat_of_ascii z)) as [Hyz|Hyz|Hyz];
    destruct (Nat.compare_spec (nat_of_ascii x) (nat_of_ascii z)) as [Hxz|Hxz|Hxz];
    try lia. apply IH.
Qed.

Lemma coherent_rankingHistory : coherent rankingHistory.
Proof.
  eexists. split; [reflexivity|]. cbn. unfold olderThan.
  split_and!; [repeat constructor; cbn; lia|repeat constructor; cbn; lia|].
  unfold LRUCache.size. cbn. lia.
Qed.

(** X8: the ranking puts the commands that were used in front of all the
    others.  With a coherent history, one entry per command and a
    consistent, transitive collation, where the comparator is consistent
    and every stable sort returns the same list, the ranked list is a run
    of entries that have a counter followed by a run of entries that have
    none, and it holds the same entries as before. *)
Theorem ranking_puts_used_commands_first
    (localeCompare : string → string → Z) (h : CommandsHistory)
    (entries : list BaseCommandEntry) :
  (∀ s t, (0 < localeCompare s t)%Z → (localeCompare t s ≤ 0)%Z) →
  (∀ s t u, (localeCompare s t ≤ 0)%Z → (localeCompare t u ≤ 0)%Z →
            (localeCompare s u ≤ 0)%Z) →
  coherent h →
  NoDup (getCommandId <$> entries) →
  ∃ recent others,
    rankEntries localeCompare h entries = recent ++ others ∧
    Forall (λ e, hasCounter (λ id, peek id h) e = true) recent ∧
    Forall (λ e, hasCounter (λ id, peek id h) e = false) others ∧
    recent ++ others ≡ₚ entries.
Proof.
  intros Htotal Htrans Hcoh Hnd.
  destruct (ranked_class_first localeCompare h entries Htotal Htrans Hcoh Hnd)
    as (recent & others & Hsort & Hrecent & Hothers).
  exists recent, others. split_and!; [done..|].
  rewrite <-Hsort. apply rankEntries_Permutation.
Qed.

Lemma ranking_puts_used_commands_first_witness :
  let entries := [candidateC; candidateA "a"; candidateD; candidateB "b"] in
  coherent rankingHistory ∧
  NoDup (getCommandId <$> entries) ∧
  ∃ recent others,
    rankEntries codeUnitCompare rankingHistory entries = recent ++ others ∧
    Forall (λ e, hasCounter (λ id, peek id rankingHistory) e = true) recent ∧
    Forall (λ e, hasCounter (λ id, peek id rankingHistory) e = false) others ∧
    recent ++ others ≡ₚ entries.
Proof.
  intros entries.
  assert (Hnd : NoDup (getCommandId <$> entries)).
  { unfold entries. cbn. repeat constructor; set_solver. }
  split_and!; [exact coherent_rankingHistory|exact Hnd|].
  exact (ranking_puts_used_commands_first codeUnitCompare rankingHistory entries
           codeUnitCompare_total codeUnitCompare_trans
           coherent_rankingHistory Hnd).
Defined.

(** ** Ranking and grouping together *)

Lemma markOtherCommands_app peekCounter (recent others : list BaseCommandEntry) :
  Forall (λ e, hasCounter peekCounter e = true) recent →
  Forall (λ e, hasCounter peekCounter e = false) others →
  markOtherCommands peekCounter (recent ++ others)
  = recent ++ match others with
              | [] => []
              | other :: rest =>
                  setGroupLabel localize_morecCommands (setShowBorder true other)
                    :: rest
              end.
Proof.
  intros Hrecent Hothers. induction Hrecent as [|e recent He Hrecent IH]; cbn.
  - destruct Hothers as [|o others Ho Hothers]; [done|]. cbn. by rewrite Ho.
  - by rewrite He, IH.
Qed.

Lemma introduceGroupMarkers_app peekCounter (recent others : list BaseCommandEntry) :
  Forall (λ e, hasCounter peekCounter e = true) recent →
  Forall (λ e, hasCounter peekCounter e = false) others →
  introduceGroupMarkers peekCounter (recent ++ others)
  = match recent with
    | [] => others
    | first :: rest =>
        (setGroupLabel localize_recentlyUsed first :: rest)
        ++ match others with
           | [] => []
           | other :: rest' =>
               setGroupLabel localize_morecCommands (setShowBorder true other)
                 :: rest'
           end
    end.
Proof.
  intros Hrecent Hothers. destruct Hrecent as [|e recent He Hrecent]; cbn.
  - destruct Hothers as [|o others Ho Hothers]; [done|]. cbn. by rewrite Ho.
  - rewrite He. f_equal. by apply markOtherCommands_app.
Qed.

Lemma handleLabelClashes_fmap {B} (f : BaseCommandEntry → B) commandLabels entries :
  (∀ d e, f (setDescription d e) = f e) →
  f <$> handleLabelClashes commandLabels entries = f <$> entries.
Proof.
  intros Hf. revert commandLabels.
  induction entries as [|e es IH]; intros seen; cbn; [done|].
  case_decide; cbn; by rewrite ?Hf, IH.
Qed.

Lemma markOtherCommands_fmap {B} (f : BaseCommandEntry → B) peekCounter entries :
  (∀ g e, f (setGroupLabel g e) = f e) →
  (∀ b e, f (setShowBorder b e) = f e) →
  f <$> markOtherCommands peekCounter entries = f <$> entries.
Proof.
  intros Hg Hb. induction entries as [|e es IH]; cbn; [done|].
  case_match; cbn; by rewrite ?Hg, ?Hb, ?IH.
Qed.

Lemma introduceGroupMarkers_fmap {B} (f : BaseCommandEntry → B) peekCounter entries :
  (∀ g e, f (setGroupLabel g e) = f e) →
  (∀ b e, f (setShowBorder b e) = f e) →
  f <$> introduceGroupMarkers peekCounter entries = f <$> entries.
Proof.
  intros Hg Hb. destruct entries as [|e es]; cbn; [done|].
  case_match; cbn; by rewrite ?Hg, ?markOtherCommands_fmap.
Qed.

(** X9: in the result of the pipeline the separator sits exactly between
    the commands that were used and the others.  With a coherent history,
    one entry per command after the removal of duplicates and a consistent,
    transitive collation, the ranked entries are a run with counters
    followed by a run without; when the first run is empty the result is
    the ranked list, untouched; otherwise the result is the ranked list in
    which the first entry is labelled "recently used" and the first entry
    of the second run, when there is one, is labelled "other commands" and
    has the border, and no other entry is changed. *)
Theorem separator_sits_between_used_and_other_commands
    (localeCompare : string → string → Z) (h : CommandsHistory)
    (entries : list BaseCommandEntry) :
  (∀ s t, (0 < localeCompare s t)%Z → (localeCompare t s ≤ 0)%Z) →
  (∀ s t u, (localeCompare s t ≤ 0)%Z → (localeCompare t u ≤ 0)%Z →
            (localeCompare s u ≤ 0)%Z) →
  coherent h →
  NoDup (getCommandId <$> distinct entries duplicateKey) →
  let ranked :=
    rankEntries localeCompare h
      (handleLabelClashes ∅ (distinct entries duplicateKey)) in
  ∃ recent others,
    ranked = recent ++ others ∧
    Forall (λ e, hasCounter (λ id, peek id h) e = true) recent ∧
    Forall (λ e, hasCounter (λ id, peek id h) e = false) others ∧
    processEntries localeCompare h entries
    = match recent with
      | [] => others
      | first :: rest =>
          (setGroupLabel localize_recentlyUsed first :: rest)
          ++ match others with
             | [] => []
             | other :: rest' =>
                 setGroupLabel localize_morecCommands (setShowBorder true other)
                   :: rest'
             end
      end.
Proof.
  intros Htotal Htrans Hcoh Hnd ranked.
  assert (Hnd' : NoDup (getCommandId <$>
                          handleLabelClashes ∅ (distinct entries duplicateKey))).
  { by rewrite handleLabelClashes_fmap. }
  destruct (ranked_class_first localeCompare h _ Htotal Htrans Hcoh Hnd')
    as (recent & others & Hsort & Hrecent & Hothers).
  exists recent, others. split_and!; [done..|].
  unfold processEntries. rewrite Hsort. by apply introduceGroupMarkers_app.
Qed.

Lemma separator_sits_between_used_and_other_commands_witness :
  let entries := [candidateC; candidateA "a"; candidateD; candidateB "b"] in
  coherent rankingHistory ∧
  NoDup (getCommandId <$> distinct entries duplicateKey) ∧
  getGroupLabel <$> processEntries codeUnitCompare rankingHistory entries
  = [Some "recently used"; None; Some "other commands"; None] ∧
  ∃ recent others,
    rankEntries codeUnitCompare rankingHistory
      (handleLabelClashes ∅ (distinct entries duplicateKey))
    = recent ++ others ∧
    Forall (λ e, hasCounter (λ id, peek id rankingHistory) e = true) recent ∧
    Forall (λ e, hasCounter (λ id, peek id rankingHistory) e = false) others.
Proof.
  intros entries.
  assert (Hnd : NoDup (getCommandId <$> distinct entries duplicateKey)).
  { vm_compute. repeat constructor; set_solver. }
  split_and!; [exact coherent_rankingHistory|exact Hnd|by vm_compute|].
  destruct (separator_sits_between_used_and_other_commands codeUnitCompare
              rankingHistory entries codeUnitCompare_total codeUnitCompare_trans
              coherent_rankingHistory Hnd)
    as (recent & others & Hsort & Hrecent & Hothers & _).
  by exists recent, others.
Defined.

Lemma other_counters_below (h : CommandsHistory) (c : LRUCache.t)
    (commandId other : string) (m : Z) :
  coherent h → cache h = Some c → other ≠ commandId →
  peek other (push commandId h) = Some m → (m < counter h)%Z.
Proof.
  intros (c0 & Hc0 & _ & Hbelow & _) Hc Hne Hpeek.
  rewrite Hc in Hc0. injection Hc0 as <-.
  destruct (push_cache commandId h c Hc) as [Hset _].
  unfold peek in Hpeek. rewrite Hset in Hpeek. cbn in Hpeek.
  apply lookup_Some_elem in Hpeek.
  pose proof (elem_of_sublist _ _ _ Hpeek (set_sublist commandId (counter h) c))
    as Hin.
  unfold LRUCache.touch in Hin. apply elem_of_app in Hin as [Hin|Hin].
  - apply list_elem_of_filter in Hin as [_ Hin].
    rewrite Forall_forall in Hbelow. by apply (Hbelow (other, m)).
  - apply list_elem_of_singleton in Hin. congruence.
Qed.

(** X10: a command that was just opened comes first in the next ranking.
    Opening an entry records its command before the action is run.  With a
    coherent history that has room for one command at least and a positive
    counter, one entry per command and a consistent, transitive collation,
    a list that holds an entry of that command is then ranked with that
    entry first, and the grouping labels it "recently used".  In the other
    modes [run] does nothing and returns false. *)
Theorem opened_command_ranks_first
    (localeCompare : string → string → Z) (st : HandlerState) (c : LRUCache.t)
    (entry other : BaseCommandEntry) (entries : list BaseCommandEntry) :
  (∀ s t, (0 < localeCompare s t)%Z → (localeCompare t s ≤ 0)%Z) →
  (∀ s t u, (localeCompare s t ≤ 0)%Z → (localeCompare t u ≤ 0)%Z →
            (localeCompare s u ≤ 0)%Z) →
  coherent (commandsHistory st) →
  cache (commandsHistory st) = Some c →
  (1 ≤ LRUCache.limit c)%nat →
  (0 < counter (commandsHistory st))%Z →
  NoDup (getCommandId <$> entries) →
  other ∈ entries →
  getCommandId other = getCommandId entry →
  (runEntry OPEN entry st).1 = true ∧
  (let h' := commandsHistory (runEntry OPEN entry st).2 in
   ∃ rest,
     introduceGroupMarkers (λ id, peek id h') (rankEntries localeCompare h' entries)
     = setGroupLabel localize_recentlyUsed other :: rest) ∧
  runEntry PREVIEW entry st = (false, st) ∧
  runEntry OPEN_IN_BACKGROUND entry st = (false, st).
Proof.
  intros Htotal Htrans Hcoh Hc Hlim Hpos Hnd Hother Hid.
  split_and!; [done| |done..].
  cbn. set (x := getCommandId entry) in *.
  set (h' := push x (commandsHistory st)).
  set (peekCounter := λ id, peek id h').
  assert (Hx : peekCounter x = Some (counter (commandsHistory st))).
  { unfold peekCounter, peek, h'.
    destruct (push_cache x _ c Hc) as [-> _]. cbn. by apply peek_set_same. }
  assert (HO : hasCounter peekCounter other = true).
  { unfold hasCounter. rewrite Hid, Hx. cbn. apply negb_true_iff, Z.eqb_neq. lia. }
  assert (Hafter : ∀ b, getCommandId b ≠ x →
            (0 < compareByRecency localeCompare peekCounter b other)%Z).
  { intros b Hb.
    destruct (hasCounter peekCounter b) eqn:HB.
    - unfold hasCounter in HB.
      destruct (peekCounter (getCommandId b)) as [m|] eqn:Hm; [|done].
      cbn in HB. apply negb_true_iff, Z.eqb_neq in HB.
      pose proof (other_counters_below _ c x _ m Hcoh Hc Hb Hm) as Hlt.
      rewrite (compare_both_counters localeCompare peekCounter b other
                 m (counter (commandsHistory st))) by (rewrite ?Hid; done || lia).
      rewrite bool_decide_eq_false_2 by lia. lia.
    - by destruct (counter_wins localeCompare peekCounter other b HO HB). }
  assert (Hsorted : StronglySorted
            (notAfter (compareByRecency localeCompare peekCounter))
            (rankEntries localeCompare h' entries)).
  { apply rankEntries_StronglySorted; [done..| |done]. by apply coherent_push. }
  assert (Hin : other ∈ rankEntries localeCompare h' entries).
  { by rewrite rankEntries_Permutation. }
  destruct (rankEntries localeCompare h' entries) as [|first rest] eqn:Hranked;
    [by apply elem_of_nil in Hin|].
  assert (Hfirst : first = other).
  { apply elem_of_cons in Hin as [->|Hin]; [done|].
    apply StronglySorted_cons in Hsorted as [Hhead _].
    rewrite Forall_forall in Hhead. specialize (Hhead other Hin).
    destruct (decide (getCommandId first = x)) as [Heq|Hne].
    - exfalso.
      assert (Hnd' : NoDup (getCommandId <$> first :: rest)).
      { by rewrite <-Hranked, rankEntries_Permutation. }
      cbn in Hnd'. apply NoDup_cons in Hnd' as [Hnotin _]. apply Hnotin.
      rewrite Heq, <-Hid. by apply list_elem_of_fmap_2.
    - specialize (Hafter first Hne). unfold notAfter in Hhead. lia. }
  subst first. cbn. fold peekCounter. rewrite HO. by eexists.
Qed.

Lemma opened_command_ranks_first_witness :
  let st := stateOf (historyOf 2 [("save", 4%Z); ("open", 7%Z)] 8) in
  let entry := menuEntry "save" "Save" in
  let entries := [menuEntry "open" "Open"; menuEntry "find" "Find"; entry] in
  coherent (commandsHistory st) ∧
  NoDup (getCommandId <$> entries) ∧
  entry ∈ entries ∧
  let h' := commandsHistory (runEntry OPEN entry st).2 in
  ∃ rest,
    introduceGroupMarkers (λ id, peek id h') (rankEntries codeUnitCompare h' entries)
    = setGroupLabel localize_recentlyUsed entry :: rest.
Proof.
  intros st entry entries.
  assert (Hcoh : coherent (commandsHistory st)).
  { eexists. split; [reflexivity|]. cbn. unfold olderThan.
    split_and!; [repeat constructor; cbn; lia|repeat constructor; cbn; lia|].
    unfold LRUCache.size. cbn. lia. }
  assert (Hnd : NoDup (getCommandId <$> entries)).
  { unfold entries. cbn. repeat constructor; set_solver. }
  assert (Hin : entry ∈ entries) by (unfold entries; set_solver).
  split_and!; [exact Hcoh|exact Hnd|exact Hin|].
  destruct (opened_command_ranks_first codeUnitCompare st _ entry entry entries
              codeUnitCompare_total codeUnitCompare_trans Hcoh eq_refl)
    as (_ & Hfirst & _); [cbn; lia|cbn; lia|exact Hnd|exact Hin|reflexivity|].
  exact Hfirst.
Defined.

(** ** Reopening the palette *)

(** X11: reopening the palette after a query.  A query that is not
    cancelled leaves its trimmed text behind; [ShowAllCommandsAction] then
    shows the prefix followed by that text when the setting to preserve the
    input is true, and the prefix alone otherwise.  The part after the
    prefix is selected whenever the trimmed text is not empty, a selection
    that is empty when the text is not restored; after a query with a blank
    text nothing is selected. *)
Theorem reopened_palette_restores_trimmed_query
    (localeCompare : string → string → Z)
    (wordFilter : string → string → option (list IHighlight))
    (isDefaultVariant : bool)
    (lookupKeybinding : string → option ResolvedKeybinding)
    (wb : Workbench) (st : HandlerState) (searchValue : string)
    (preserveInput : option bool) :
  let st' := (doGetResults localeCompare wordFilter isDefaultVariant
                lookupKeybinding wb st searchValue notCancelled).2 in
  let shown := ShowAllCommandsAction_run preserveInput (lastCommandPaletteInput st') in
  shown.1 = (if bool_decide (preserveInput = Some true)
             then ALL_COMMANDS_PREFIX +:+ trim searchValue
             else ALL_COMMANDS_PREFIX) ∧
  shown.2 = (if truthyString (trim searchValue)
             then Some (1%nat,
                        if bool_decide (preserveInput = Some true)
                        then (1 + String.length (trim searchValue))%nat
                        else 1%nat)
             else None).
Proof.
  cbn zeta.
  change (lastCommandPaletteInput
            (doGetResults localeCompare wordFilter isDefaultVariant
               lookupKeybinding wb st searchValue notCancelled).2)
    with (Some (trim searchValue)).
  unfold ShowAllCommandsAction_run.
  change (default "" (Some (trim searchValue))) with (trim searchValue).
  destruct (bool_decide (preserveInput = Some true)) eqn:Hrestore;
    destruct (truthyString (trim searchValue)) eqn:Htext; cbn [andb fst snd].
  - split; [done|]. by rewrite string_length_append.
  - split; [|done]. unfold truthyString in Htext.
    apply negb_false_iff, String.eqb_eq in Htext. by rewrite Htext.
  - done.
  - done.
Qed.

(** ** From actions to entries *)

Lemma truthyString_ne (s : string) : truthyString s = true ↔ s ≠ "".
Proof.
  unfold truthyString. rewrite negb_true_iff. split.
  - intros H ->. by rewrite String.eqb_refl in H.
  - intros H. by apply String.eqb_neq.
Qed.

(** X12: which editor actions make it into the list.  There is an entry
    with a given command identifier and label exactly when the active
    editor offers an action with that identifier and label which is not the
    palette's own action, has a label that is not empty, and matches the
    query: by its label, or, when the language is not the default one, by
    an alias that is not empty. *)
Theorem editor_entries_are_the_matching_actions
    (wordFilter : string → string → option (list IHighlight))
    (isDefaultVariant : bool)
    (lookupKeybinding : string → option ResolvedKeybinding)
    (actions : list IEditorAction.t) (searchValue commandId label : string) :
  (∃ e, e ∈ editorActionsToEntries wordFilter isDefaultVariant lookupKeybinding
              actions searchValue
        ∧ getCommandId e = commandId ∧ getLabel e = label) ↔
  (∃ a, a ∈ actions ∧
        IEditorAction.id a = commandId ∧ IEditorAction.label a = label ∧
        commandId ≠ ShowAllCommandsAction_ID ∧ label ≠ "" ∧
        (is_Some (wordFilter searchValue label) ∨
         (isDefaultVariant = false ∧ IEditorAction.alias a ≠ "" ∧
          is_Some (wordFilter searchValue (IEditorAction.alias a))))).
Proof.
  unfold editorActionsToEntries. split.
  - intros (e & (a & He & Ha)%list_elem_of_bind & Hid & Hlabel).
    exists a. split; [done|]. unfold editorActionToEntries in He.
    destruct (decide (IEditorAction.id a = ShowAllCommandsAction_ID)) as [|Hne];
      [by apply elem_of_nil in He|].
    destruct (truthyString (IEditorAction.label a)) eqn:Hl;
      [|by apply elem_of_nil in He].
    apply truthyString_ne in Hl.
    destruct isDefaultVariant; cbn in He.
    + case_match eqn:Hmatch; [|by apply elem_of_nil in He].
      apply list_elem_of_singleton in He as ->. cbn in Hid, Hlabel. subst.
      split_and!; try done. left.
      rewrite orb_false_r in Hmatch. by apply bool_decide_eq_true in Hmatch.
    + case_match eqn:Hmatch; [|by apply elem_of_nil in He].
      apply list_elem_of_singleton in He as ->. cbn in Hid, Hlabel. subst.
      split_and!; try done.
      apply orb_true_iff in Hmatch as [Hm|Hm]; apply bool_decide_eq_true in Hm.
      * by left.
      * right. destruct (truthyString (IEditorAction.alias a)) eqn:Halias.
        -- apply truthyString_ne in Halias. by split_and!.
        -- by destruct Hm.
  - intros (a & Ha & Hid & Hlabel & Hne & Hl & Hmatch). subst.
    apply truthyString_ne in Hl.
    eexists. split; [apply list_elem_of_bind; exists a; split; [|exact Ha]|].
    + unfold editorActionToEntries.
      rewrite decide_False by done. rewrite Hl.
      assert (Hany :
        bool_decide (is_Some (wordFilter searchValue (IEditorAction.label a)))
        || bool_decide (is_Some
             match (if negb isDefaultVariant
                    then Some (IEditorAction.alias a) else None) with
             | Some a0 => if truthyString a0 then wordFilter searchValue a0 else None
             | None => None
             end) = true).
      { apply orb_true_iff. destruct Hmatch as [Hm|(-> & Halias & Hm)].
        - left. by apply bool_decide_eq_true.
        - right. apply bool_decide_eq_true. cbn.
          apply truthyString_ne in Halias. by rewrite Halias. }
      rewrite Hany. apply list_elem_of_singleton. reflexivity.
    + done.
Qed.

(** X13: in the default language no entry shows an alias.  Every entry
    built from an editor action or from a menu item has no detail and no
    detail highlights, and is in the list because its label matched the
    query. *)
Theorem default_language_entries_have_no_alias
    (wordFilter : string → string → option (list IHighlight))
    (lookupKeybinding : string → option ResolvedKeybinding)
    (actions : list IEditorAction.t) (items : list MenuItemAction.t)
    (searchValue : string) (e : BaseCommandEntry) :
  e ∈ editorActionsToEntries wordFilter true lookupKeybinding actions searchValue
      ++ menuItemActionsToEntries wordFilter true lookupKeybinding items searchValue →
  getDetail e = None ∧ detailHighlights e = None ∧
  labelHighlights e = wordFilter searchValue (getLabel e) ∧
  is_Some (labelHighlights e).
Proof.
  intros [He|He]%elem_of_app.
  - unfold editorActionsToEntries in He.
    apply list_elem_of_bind in He as (a & He & _).
    unfold editorActionToEntries in He. cbn in He.
    repeat case_match; try (by apply elem_of_nil in He).
    apply list_elem_of_singleton in He as ->. cbn.
    match goal with H : _ || _ = true |- _ =>
      rewrite orb_false_r in H; apply bool_decide_eq_true in H end.
    by split_and!.
  - unfold menuItemActionsToEntries in He.
    apply list_elem_of_bind in He as (a & He & _).
    unfold menuItemActionToEntries in He. cbn in He.
    destruct (ICommandAction.title (MenuItemAction.item a));
      destruct (ICommandAction.category (MenuItemAction.item a)) as [[]|];
      cbn in He; repeat case_match; try (by apply elem_of_nil in He);
      apply list_elem_of_singleton in He as ->; cbn;
      match goal with H : _ || _ = true |- _ =>
        rewrite orb_false_r in H; apply bool_decide_eq_true in H end;
      by split_and!.
Qed.

Lemma default_language_entries_have_no_alias_witness :
  let e := newActionCommandEntry "file.save" None "File: Save" None
             {| hlLabel := Some []; hlAlias := None |}
             (MenuItemAction.mk "file.save"
                (ICommandAction.mk "file.save"
                   (ILocalizedString "Save" "Save")
                   (Some (ILocalizedString "File" "File")))) in
  e ∈ editorActionsToEntries matchEverything true noKeybinding [] ""
      ++ menuItemActionsToEntries matchEverything true noKeybinding
           [MenuItemAction.mk "file.save"
              (ICommandAction.mk "file.save"
                 (ILocalizedString "Save" "Save")
                 (Some (ILocalizedString "File" "File")))] "" ∧
  getDetail e = None ∧ detailHighlights e = None.
Proof.
  intros e.
  assert (He : e ∈ editorActionsToEntries matchEverything true noKeybinding [] ""
      ++ menuItemActionsToEntries matchEverything true noKeybinding
           [MenuItemAction.mk "file.save"
              (ICommandAction.mk "file.save"
                 (ILocalizedString "Save" "Save")
                 (Some (ILocalizedString "File" "File")))] "").
  { vm_compute. left. }
  split; [exact He|].
  destruct (default_language_entries_have_no_alias matchEverything noKeybinding
              _ _ _ e He) as (Hd & Hh & _).
  by split.
Defined.

(** ** Clearing the history *)

(** X14: [ClearCommandHistoryAction].  With a configured length above 0
    the run empties the history and restarts the counter at 1, in memory
    and in the storage: every peek finds nothing, at once and after a
    restart with any length, and the next push records its command under
    counter 1.  With the configured length 0 the run changes nothing, the
    storage included. *)
Theorem clear_action_empties_history_unless_disabled
    (config : option nat) (h : CommandsHistory) :
  let h' := ClearCommandHistoryAction_run config h in
  ((0 < getConfiguredCommandHistoryLength config)%nat →
   (∀ id, peek id h' = None) ∧
   counter h' = 1%Z ∧
   storage h' = {| PREF_KEY_CACHE :=
                     Some {| usesLRU := Some true; serializedEntries := [] |};
                   PREF_KEY_COUNTER := Some 1%Z |} ∧
   (∀ len id, peek id (load len h') = None ∧ counter (load len h') = 1%Z) ∧
   (∀ commandId, peek commandId (push commandId h') = Some 1%Z)) ∧
  (getConfiguredCommandHistoryLength config = 0%nat → h' = h).
Proof.
  intros h'. unfold h', ClearCommandHistoryAction_run. split.
  - intros Hlen. rewrite (proj2 (Nat.ltb_lt _ _) Hlen).
    split_and!; try done.
    intros commandId.
    destruct (push_cache commandId (clearHistory config h)
                (LRUCache.new (getConfiguredCommandHistoryLength config)) eq_refl)
      as [Hset _].
    unfold peek. rewrite Hset. cbn -[LRUCache.set].
    apply peek_set_same. exact Hlen.
  - intros ->. done.
Qed.

Lemma clear_action_empties_history_unless_disabled_witness :
  let h := historyOf 50 [("save", 4%Z); ("open", 7%Z)] 8 in
  (0 < getConfiguredCommandHistoryLength None)%nat ∧
  peek "open" (ClearCommandHistoryAction_run None h) = None ∧
  getConfiguredCommandHistoryLength (Some 0%nat) = 0%nat ∧
  ClearCommandHistoryAction_run (Some 0%nat) h = h.
Proof.
  intros h.
  assert (Hlen : (0 < getConfiguredCommandHistoryLength None)%nat).
  { unfold getConfiguredCommandHistoryLength, DEFAULT_COMMANDS_HISTORY_LENGTH. lia. }
  destruct (clear_action_empties_history_unless_disabled None h) as [Hclear _].
  destruct (clear_action_empties_history_unless_disabled (Some 0%nat) h)
    as [_ Hkeep].
  split_and!; [exact Hlen|exact (proj1 (Hclear Hlen) "open")|reflexivity|].
  exact (Hkeep eq_refl).
Defined.

(** The entries of the menu come from its menu items.  Every entry built
    from the command palette menu belongs to a menu item of one of the
    groups, never to a submenu; it carries the identifier of that item, and
    its label, which is not empty, is the title of the item or the
    category, a colon and the title. *)
Lemma menu_entry_origin
    (wordFilter : string → string → option (list IHighlight))
    (isDefaultVariant : bool)
    (lookupKeybinding : string → option ResolvedKeybinding)
    (menu : list (string * list MenuAction)) (searchValue : string)
    (e : BaseCommandEntry) :
  e ∈ menuItemActionsToEntries wordFilter isDefaultVariant lookupKeybinding
        (menuItemActions menu) searchValue →
  ∃ group actions item,
    (group, actions) ∈ menu ∧ IsMenuItemAction item ∈ actions ∧
    getCommandId e = MenuItemAction.id item ∧
    action e = OfMenuItemAction item ∧
    getLabel e ≠ "" ∧
    (getLabel e = plainValue (ICommandAction.title (MenuItemAction.item item)) ∨
     ∃ category,
       ICommandAction.category (MenuItemAction.item item) = Some category ∧
       getLabel e
       = plainValue category +:+ ": "
         +:+ plainValue (ICommandAction.title (MenuItemAction.item item))).
Proof.
  unfold menuItemActionsToEntries, menuItemActions.
  intros (item & He & Hitem)%list_elem_of_bind.
  apply list_elem_of_bind in Hitem as (a & Hitem & Ha).
  apply list_elem_of_bind in Ha as ([group actions] & Ha & Hgroup).
  cbn in Ha. destruct a as [item'|]; [|by apply elem_of_nil in Hitem].
  apply list_elem_of_singleton in Hitem as ->. rename item' into item.
  exists group, actions, item. split; [done|]. split; [done|].
  unfold menuItemActionToEntries in He.
  destruct (ICommandAction.category (MenuItemAction.item item)) as [[cat|cat orig]|];
    cbn in He.
  - destruct (truthyString cat) eqn:Hcat.
    + destruct (truthyString (localize_cat_title cat _)) eqn:Hlabel;
        [|by apply elem_of_nil in He].
      apply truthyString_ne in Hlabel.
      case_match; [|by apply elem_of_nil in He].
      apply list_elem_of_singleton in He as ->. cbn.
      split_and!; try done. right. by eexists.
    + destruct (truthyString (plainValue _)) eqn:Hlabel;
        [|by apply elem_of_nil in He].
      apply truthyString_ne in Hlabel.
      case_match; [|by apply elem_of_nil in He].
      apply list_elem_of_singleton in He as ->. cbn.
      split_and!; try done. by left.
  - destruct (truthyString (localize_cat_title cat _)) eqn:Hlabel;
      [|by apply elem_of_nil in He].
    apply truthyString_ne in Hlabel.
    case_match; [|by apply elem_of_nil in He].
    apply list_elem_of_singleton in He as ->. cbn.
    split_and!; try done. right. by eexists.
  - destruct (truthyString (plainValue _)) eqn:Hlabel;
      [|by apply elem_of_nil in He].
    apply truthyString_ne in Hlabel.
    case_match; [|by apply elem_of_nil in He].
    apply list_elem_of_singleton in He as ->. cbn.
    split_and!; try done. by left.
Qed.

(** ** What the later stages keep *)

(** X15: after the removal of duplicates the pipeline neither drops nor
    adds nor rewrites a command.  The entries of the result are, up to
    their order, those that passed the removal of duplicates, each with its
    command identifier, label, detail, action and highlights; only the
    description, the group label and the border can differ. *)
Theorem pipeline_keeps_the_deduplicated_commands
    (localeCompare : string → string → Z) (h : CommandsHistory)
    (entries : list BaseCommandEntry) :
  let shown := λ e, (getCommandId e, getLabel e, getDetail e, action e,
                     labelHighlights e, detailHighlights e) in
  shown <$> processEntries localeCompare h entries
    ≡ₚ shown <$> distinct entries duplicateKey ∧
  length (processEntries localeCompare h entries)
    = length (distinct entries duplicateKey).
Proof.
  intros shown.
  assert (Hperm : shown <$> processEntries localeCompare h entries
                    ≡ₚ shown <$> distinct entries duplicateKey).
  { unfold processEntries.
    rewrite introduceGroupMarkers_fmap by done.
    rewrite rankEntries_Permutation.
    by rewrite handleLabelClashes_fmap. }
  split; [done|].
  apply Permutation_length in Hperm. by rewrite !length_fmap in Hperm.
Qed.

(** ** Where the focus goes *)

Lemma existsb_class_first peekCounter (recent others : list BaseCommandEntry) :
  Forall (λ e, hasCounter peekCounter e = false) others →
  existsb (hasCounter peekCounter) (recent ++ others)
  = existsb (hasCounter peekCounter) recent.
Proof.
  intros Hothers. rewrite existsb_app.
  assert (existsb (hasCounter peekCounter) others = false) as ->.
  { induction Hothers as [|o others Ho Hothers IH]; cbn; [done|].
    by rewrite Ho, IH. }
  by rewrite orb_false_r.
Qed.

(** X16: where the focus goes.  [getAutoFocus] always asks for the first
    entry.  Over the ranked entries of a query, with a coherent history,
    one entry per command and a consistent, transitive collation, it gives
    up the prefix match, so that the focus stays on the first entry,
    exactly when the trimmed query is not empty, the history is enabled and
    some ranked entry has a counter.  Otherwise, and when there is no
    model, the prefix to match is the trimmed query. *)
Theorem focus_stays_on_recent_command
    (localeCompare : string → string → Z) (h : CommandsHistory)
    (entries : list BaseCommandEntry) (searchValue : string)
    (historyEnabled : bool) :
  (∀ s t, (0 < localeCompare s t)%Z → (localeCompare t s ≤ 0)%Z) →
  (∀ s t u, (localeCompare s t ≤ 0)%Z → (localeCompare t u ≤ 0)%Z →
            (localeCompare s u ≤ 0)%Z) →
  coherent h →
  NoDup (getCommandId <$> entries) →
  let ranked := rankEntries localeCompare h entries in
  getAutoFocus historyEnabled h searchValue
    (Some (introduceGroupMarkers (λ id, peek id h) ranked))
  = {| autoFocusFirstEntry := true;
       autoFocusPrefixMatch :=
         if truthyString (trim searchValue) && historyEnabled
            && existsb (hasCounter (λ id, peek id h)) ranked
         then None else Some (trim searchValue) |} ∧
  getAutoFocus historyEnabled h searchValue None
  = {| autoFocusFirstEntry := true;
       autoFocusPrefixMatch := Some (trim searchValue) |}.
Proof.
  intros Htotal Htrans Hcoh Hnd ranked. split.
  - unfold getAutoFocus. do 3 f_equal.
    destruct (ranked_class_first localeCompare h entries Htotal Htrans Hcoh Hnd)
      as (recent & others & Hsort & Hrecent & Hothers).
    unfold ranked. rewrite Hsort.
    rewrite introduceGroupMarkers_app, existsb_class_first by done.
    destruct Hrecent as [|first recent Hfirst Hrecent]; cbn.
    + destruct Hothers as [|o others Ho Hothers]; cbn; [done|]. by rewrite Ho.
    + change (hasCounter (λ id, peek id h)
                (setGroupLabel localize_recentlyUsed first))
        with (hasCounter (λ id, peek id h) first).
      by rewrite Hfirst.
  - unfold getAutoFocus. cbn. by rewrite andb_false_r.
Qed.

Lemma focus_stays_on_recent_command_witness :
  let entries := [candidateC; candidateA "a"; candidateD; candidateB "b"] in
  coherent rankingHistory ∧
  NoDup (getCommandId <$> entries) ∧
  autoFocusPrefixMatch
    (getAutoFocus true rankingHistory " a "
       (Some (introduceGroupMarkers (λ id, peek id rankingHistory)
                (rankEntries codeUnitCompare rankingHistory entries))))
  = None.
Proof.
  intros entries.
  assert (Hnd : NoDup (getCommandId <$> entries)).
  { unfold entries. cbn. repeat constructor; set_solver. }
  split_and!; [exact coherent_rankingHistory|exact Hnd|].
  rewrite (proj1 (focus_stays_on_recent_command codeUnitCompare rankingHistory
                    entries " a " true codeUnitCompare_total codeUnitCompare_trans
                    coherent_rankingHistory Hnd)).
  reflexivity.
Defined.

(** ** Rankings that are sorted *)

Lemma Sorted_restrict {A} (R R' : relation A) (Q : A → Prop) (l : list A) :
  (∀ a b, Q a → Q b → R a b → R' a b) →
  Forall Q l → Sorted R l → Sorted R' l.
Proof.
  intros Himpl HQ Hl. induction Hl as [|x l Hl IH Hhd]; [constructor|].
  apply Forall_cons_1 in HQ as [Hx HQ]. constructor; [by apply IH|].
  destruct Hhd as [|y l Hxy]; constructor.
  apply Forall_cons_1 in HQ as [Hy _]. by apply Himpl.
Qed.

(** X17: commands that were never used are listed by label.  When no entry
    has a counter, as after the history was cleared or with the history
    disabled, and the collation is consistent, the ranked list is in the
    order of the lower-case labels, and the grouping adds no label and no
    border to it. *)
Theorem unused_commands_are_listed_by_label
    (localeCompare : string → string → Z) (h : CommandsHistory)
    (entries : list BaseCommandEntry) :
  (∀ s t, (0 < localeCompare s t)%Z → (localeCompare t s ≤ 0)%Z) →
  Forall (λ e, hasCounter (λ id, peek id h) e = false) entries →
  let ranked := rankEntries localeCompare h entries in
  Sorted (λ a b, (localeCompare (getSortLabel a) (getSortLabel b) ≤ 0)%Z) ranked ∧
  introduceGroupMarkers (λ id, peek id h) ranked = ranked.
Proof.
  intros Hcollation Hnone ranked.
  assert (Hranked : Forall (λ e, hasCounter (λ id, peek id h) e = false) ranked).
  { unfold ranked. by rewrite rankEntries_Permutation. }
  split.
  - eapply (Sorted_restrict
              (notAfter (compareByRecency localeCompare (λ id, peek id h))));
      [|exact Hranked|].
    + intros a b Ha Hb. unfold notAfter.
      by rewrite (compare_no_counter localeCompare _ a b Ha Hb).
    + apply rankEntries_Sorted; [done|].
      clear ranked Hranked. induction Hnone as [|e es He Hes IH]; constructor; [|done].
      apply Forall_forall. intros b _. by right.
  - destruct Hranked as [|e es He Hes]; [done|]. cbn. by rewrite He.
Qed.

Lemma unused_commands_are_listed_by_label_witness :
  let h := clearHistory None (historyOf 50 [("save", 4%Z)] 5) in
  let entries := [menuEntry "save" "Save"; menuEntry "open" "Open"] in
  (∀ s t, (0 < codeUnitCompare s t)%Z → (codeUnitCompare t s ≤ 0)%Z) ∧
  Forall (λ e, hasCounter (λ id, peek id h) e = false) entries ∧
  introduceGroupMarkers (λ id, peek id h) (rankEntries codeUnitCompare h entries)
  = rankEntries codeUnitCompare h entries.
Proof.
  intros h entries.
  assert (Hcollation : ∀ s t, (0 < codeUnitCompare s t)%Z → (codeUnitCompare t s ≤ 0)%Z).
  { induction s as [|x s IH]; intros [|y t]; cbn; try lia.
    rewrite (Nat.compare_antisym (nat_of_ascii x) (nat_of_ascii y)).
    destruct (nat_of_ascii x ?= nat_of_ascii y); cbn; try lia. apply IH. }
  assert (Hnone : Forall (λ e, hasCounter (λ id, peek id h) e = false) entries).
  { unfold entries. by repeat constructor. }
  split_and!; [exact Hcollation|exact Hnone|].
  exact (proj2 (unused_commands_are_listed_by_label codeUnitCompare h entries
                  Hcollation Hnone)).
Defined.

(** X18: with one entry per command the ranking is sorted.  In a coherent
    history no two commands share a counter, so when the entries have
    pairwise different command identifiers and the collation is consistent
    and transitive, every entry of the ranked list is ranked not after any
    entry that follows it. *)
Theorem ranking_is_sorted_for_distinct_commands
    (localeCompare : string → string → Z) (h : CommandsHistory)
    (entries : list BaseCommandEntry) :
  (∀ s t, (0 < localeCompare s t)%Z → (localeCompare t s ≤ 0)%Z) →
  (∀ s t u, (localeCompare s t ≤ 0)%Z → (localeCompare t u ≤ 0)%Z →
            (localeCompare s u ≤ 0)%Z) →
  coherent h →
  NoDup (getCommandId <$> entries) →
  StronglySorted (notAfter (compareByRecency localeCompare (λ id, peek id h)))
    (rankEntries localeCompare h entries).
Proof.
  intros Htotal Htrans Hcoh Hnd.
  apply Sorted_StronglySorted.
  { intros a b c. unfold notAfter. by apply compareFn_trans. }
  apply rankEntries_Sorted; [done|].
  induction entries as [|a es IH]; [constructor|].
  cbn in Hnd. apply NoDup_cons in Hnd as [Ha Hnd].
  constructor; [|by apply IH].
  apply Forall_forall. intros b Hb.
  destruct (peek (getCommandId a) h) as [v|] eqn:Hv.
  - left. intros Heq. apply Ha.
    rewrite (coherent_peek_inj h (getCommandId a) (getCommandId b) v Hcoh Hv)
      by done.
    by apply list_elem_of_fmap_2.
  - right. unfold hasCounter. by rewrite Hv.
Qed.

Lemma ranking_is_sorted_for_distinct_commands_witness :
  let entries := [candidateA "a"; candidateB "b"; candidateC; candidateD] in
  coherent rankingHistory ∧
  NoDup (getCommandId <$> entries) ∧
  StronglySorted
    (notAfter (compareByRecency codeUnitCompare (λ id, peek id rankingHistory)))
    (rankEntries codeUnitCompare rankingHistory entries).
Proof.
  intros entries.
  assert (Htotal : ∀ s t, (0 < codeUnitCompare s t)%Z → (codeUnitCompare t s ≤ 0)%Z).
  { induction s as [|x s IH]; intros [|y t]; cbn; try lia.
    rewrite (Nat.compare_antisym (nat_of_ascii x) (nat_of_ascii y)).
    destruct (nat_of_ascii x ?= nat_of_ascii y); cbn; try lia. apply IH. }
  assert (Htrans : ∀ s t u, (codeUnitCompare s t ≤ 0)%Z →
            (codeUnitCompare t u ≤ 0)%Z → (codeUnitCompare s u ≤ 0)%Z).
  { induction s as [|x s IH]; intros [|y t] [|z u]; cbn; try lia.
    destruct (Nat.compare_spec (nat_of_ascii x) (nat_of_ascii y)) as [Hxy|Hxy|Hxy];
      destruct (Nat.compare_spec (nat_of_ascii y) (nat_of_ascii z)) as [Hyz|Hyz|Hyz];
      destruct (Nat.compare_spec (nat_of_ascii x) (nat_of_ascii z)) as [Hxz|Hxz|Hxz];
      try lia. apply IH. }
  assert (Hcoh : coherent rankingHistory).
  { eexists. split; [reflexivity|]. cbn. unfold olderThan.
    split_and!; [repeat constructor; cbn; lia|repeat constructor; cbn; lia|].
    unfold LRUCache.size. cbn. lia. }
  assert (Hnd : NoDup (getCommandId <$> entries)).
  { unfold entries. cbn. repeat constructor; set_solver. }
  split_and!; [exact Hcoh|exact Hnd|].
  exact (ranking_is_sorted_for_distinct_commands codeUnitCompare rankingHistory
           entries Htotal Htrans Hcoh Hnd).
Defined.

(** ** What a query can show *)

Lemma editor_entry_origin wordFilter isDefaultVariant lookupKeybinding
    actions searchValue e :
  e ∈ editorActionsToEntries wordFilter isDefaultVariant lookupKeybinding
        actions searchValue →
  ∃ a, a ∈ actions ∧ getCommandId e = IEditorAction.id a ∧
       action e = OfEditorAction a ∧
       getLabel e = IEditorAction.label a ∧ getLabel e ≠ "" ∧
       getCommandId e ≠ ShowAllCommandsAction_ID.
Proof.
  unfold editorActionsToEntries. intros (a & He & Ha)%list_elem_of_bind.
  exists a. split; [done|]. unfold editorActionToEntries in He.
  destruct (decide (IEditorAction.id a = ShowAllCommandsAction_ID)) as [|Hne];
    [by apply elem_of_nil in He|].
  destruct (truthyString (IEditorAction.label a)) eqn:Hl;
    [|by apply elem_of_nil in He].
  apply truthyString_ne in Hl.
  case_match; [|by apply elem_of_nil in He].
  by apply list_elem_of_singleton in He as ->.
Qed.

(** X19: a query shows nothing but what the two sources offer.  Every entry
    of the result of [doGetResults] either belongs to an action of the
    active editor, other than the palette's own action, or to a menu item
    of a group of the command palette menu, never to a submenu; it carries
    the identifier of its action, and its label is not empty: the label of
    the editor action, or the title of the menu item, alone or after its
    category and a colon. *)
Theorem query_shows_only_offered_actions
    (localeCompare : string → string → Z)
    (wordFilter : string → string → option (list IHighlight))
    (isDefaultVariant : bool)
    (lookupKeybinding : string → option ResolvedKeybinding)
    (wb : Workbench) (st : HandlerState) (searchValue : string)
    (token : CancellationToken) (e : BaseCommandEntry) :
  e ∈ (doGetResults localeCompare wordFilter isDefaultVariant lookupKeybinding
         wb st searchValue token).1 →
  getLabel e ≠ "" ∧
  ((∃ a, a ∈ default [] (getSupportedActions wb) ∧
         getCommandId e = IEditorAction.id a ∧ action e = OfEditorAction a ∧
         getLabel e = IEditorAction.label a ∧
         getCommandId e ≠ ShowAllCommandsAction_ID) ∨
   (∃ group actions item,
      (group, actions) ∈ commandPaletteMenu wb ∧
      IsMenuItemAction item ∈ actions ∧
      getCommandId e = MenuItemAction.id item ∧
      action e = OfMenuItemAction item ∧
      (getLabel e = plainValue (ICommandAction.title (MenuItemAction.item item)) ∨
       ∃ category,
         ICommandAction.category (MenuItemAction.item item) = Some category ∧
         getLabel e
         = plainValue category +:+ ": "
           +:+ plainValue (ICommandAction.title (MenuItemAction.item item))))).
Proof.
  unfold doGetResults. destruct (isCancellationRequested token);
    [by intros ?%elem_of_nil|].
  cbn [fst]. intros He.
  set (shown := λ e : BaseCommandEntry, (getCommandId e, getLabel e, action e)).
  set (entries := _ ++ _) in He.
  assert (Hshown : shown e ∈ shown <$> entries).
  { apply (list_elem_of_fmap_2 shown) in He. revert He.
    unfold processEntries.
    rewrite introduceGroupMarkers_fmap by done.
    rewrite rankEntries_Permutation.
    rewrite handleLabelClashes_fmap by done.
    intros He. eapply elem_of_sublist; [exact He|].
    apply fmap_sublist, distinct_sublist. }
  apply list_elem_of_fmap in Hshown as (e0 & Heq & He0).
  injection Heq as Hid Hlabel Haction. rewrite Hid, Hlabel, Haction.
  apply elem_of_app in He0 as [He0|He0].
  - apply editor_entry_origin in He0 as (a & Ha & ? & ? & ? & ? & ?).
    split; [done|]. left. by exists a.
  - apply menu_entry_origin in He0
      as (group & actions & item & ? & ? & ? & ? & ? & ?).
    split; [done|]. right. by exists group, actions, item.
Qed.

Lemma query_shows_only_offered_actions_witness :
  let e := menuEntry "file.save" "Save" in
  e ∈ (doGetResults codeUnitCompare matchEverything true noKeybinding
         (menuOf [menuItem "file.save" "Save"]) (stateOf (historyOf 50 [] 1))
         "" notCancelled).1 ∧
  getLabel e ≠ "".
Proof.
  intros e.
  assert (He : e ∈ (doGetResults codeUnitCompare matchEverything true noKeybinding
                      (menuOf [menuItem "file.save" "Save"])
                      (stateOf (historyOf 50 [] 1)) "" notCancelled).1).
  { vm_compute. left. }
  split; [exact He|].
  exact (proj1 (query_shows_only_offered_actions codeUnitCompare matchEverything
                  true noKeybinding (menuOf [menuItem "file.save" "Save"])
                  (stateOf (historyOf 50 [] 1)) "" notCancelled e He)).
Defined.

(** ** The history over any sequence of operations *)

Lemma storedCoherent_of_saved h c :
  coherent h → cache h = Some c →
  storage h = {| PREF_KEY_CACHE :=
                   Some {| usesLRU := Some true;
                           serializedEntries := LRUCache.entries c |};
                 PREF_KEY_COUNTER := Some (counter h) |} →
  storedCoherent h.
Proof.
  intros (c0 & Hc0 & Hsorted & Hbelow & _) Hc Hst.
  rewrite Hc in Hc0. injection Hc0 as <-.
  unfold storedCoherent. rewrite Hst. cbn. by split.
Qed.

Lemma wellKept_push commandId h : wellKept h → wellKept (push commandId h).
Proof.
  intros [[Hnone|Hcoh] Hstored].
  - unfold push. rewrite Hnone. split; [by left|done].
  - pose proof Hcoh as (c & Hc & _).
    pose proof (coherent_push commandId h Hcoh) as Hcoh'.
    split; [by right|].
    destruct (push_cache commandId h c Hc) as [Hset Hn].
    eapply storedCoherent_of_saved; [done|exact Hset|].
    unfold push. rewrite Hc. unfold saveState. cbn. reflexivity.
Qed.

Lemma coherent_setLimit n h c :
  coherent h → cache h = Some c →
  coherent {| cache := Some (LRUCache.setLimit n c);
              counter := counter h; storage := storage h |}.
Proof.
  intros (c0 & Hc0 & Hsorted & Hbelow & _) Hc.
  rewrite Hc in Hc0. injection Hc0 as <-.
  eexists. split; [done|]. rewrite setLimit_keeps_last. cbn.
  split_and!.
  - eapply StronglySorted_sublist; [apply sublist_drop|done].
  - eapply Forall_sublist; [apply sublist_drop|done].
  - unfold LRUCache.size. cbn. rewrite length_drop. lia.
Qed.

Lemma wellKept_updateConfiguration n h :
  wellKept h → wellKept (updateConfiguration n h).
Proof.
  intros [[Hnone|Hcoh] Hstored].
  - unfold updateConfiguration. rewrite Hnone. split; [by left|done].
  - pose proof Hcoh as (c & Hc & _).
    unfold updateConfiguration. rewrite Hc. case_decide; [|by split; [right|]].
    pose proof (coherent_setLimit n h c Hcoh Hc) as Hcoh'.
    assert (Hsaved : coherent (saveState
              {| cache := Some (LRUCache.setLimit n c);
                 counter := counter h; storage := storage h |})).
    { destruct Hcoh' as (c' & Hc' & ?). exists c'. unfold saveState. by rewrite Hc'. }
    split; [by right|].
    eapply storedCoherent_of_saved; [exact Hsaved|reflexivity|reflexivity].
Qed.

Lemma wellKept_clearHistory config h : wellKept (clearHistory config h).
Proof.
  split; [right; apply coherent_clearHistory|].
  unfold storedCoherent. cbn. split; constructor.
Qed.

Lemma wellKept_load len h : wellKept h → wellKept (load len h).
Proof.
  intros [_ Hstored]. split.
  - right. unfold storedCoherent in Hstored.
    destruct (PREF_KEY_CACHE (storage h)) as [sc|] eqn:Hsc.
    + destruct Hstored as [Hsorted Hbelow]. by eapply coherent_load.
    + by apply coherent_load_empty.
  - unfold storedCoherent in *. cbn.
    destruct (PREF_KEY_CACHE (storage h)) as [sc|]; [|done].
    destruct Hstored as [Hsorted Hbelow]. split; [done|].
    by destruct (PREF_KEY_COUNTER (storage h)).
Qed.

Lemma wellKept_runHistoryOp h op : wellKept h → wellKept (runHistoryOp h op).
Proof.
  intros Hh. destruct op as [commandId|n|config|config]; cbn.
  - by apply wellKept_push.
  - by apply wellKept_updateConfiguration.
  - unfold ClearCommandHistoryAction_run.
    case_match; [apply wellKept_clearHistory|done].
  - unfold newCommandsHistory. by apply wellKept_load, wellKept_updateConfiguration.
Qed.

(** X20: the history stays in good order whatever is done to it.  From a
    state in good order, and so from a process that starts on an empty
    storage, any sequence of pushes, changes of the configured length,
    runs of the clear action and constructions of a new history from the
    storage leaves a state in good order: the cache, once there is one, is
    within its limit, lists the commands in the order of their counters,
    which are pairwise different and below the next counter, and what is
    stored loads into such a cache again. *)
Theorem history_stays_in_good_order (ops : list HistoryOp) (h : CommandsHistory) :
  wellKept h →
  let h' := runHistoryOps ops h in
  wellKept h' ∧
  ∀ c, cache h' = Some c →
    (LRUCache.size c ≤ LRUCache.limit c)%nat ∧
    StronglySorted olderThan (LRUCache.entries c) ∧
    Forall (λ e, (e.2 < counter h')%Z) (LRUCache.entries c) ∧
    ∀ len, coherent (load len h').
Proof.
  intros Hh h'.
  assert (Hkept : wellKept h').
  { unfold h', runHistoryOps. clear h'. revert h Hh.
    induction ops as [|op ops IH]; intros h Hh; [done|].
    cbn. by apply IH, wellKept_runHistoryOp. }
  split; [done|]. intros c Hc.
  destruct Hkept as [[Hnone|Hcoh] Hstored]; [congruence|].
  pose proof Hcoh as (c0 & Hc0 & Hsorted & Hbelow & Hsize).
  rewrite Hc in Hc0. injection Hc0 as <-.
  split_and!; [done..|].
  intros len.
  by destruct (wellKept_load len h' (conj (or_intror Hcoh) Hstored)) as [[?|?] _].
Qed.

Lemma history_stays_in_good_order_witness :
  let h := initialHistory {| PREF_KEY_CACHE := None; PREF_KEY_COUNTER := None |} in
  let ops := [OpConstruct None; OpPush "save"; OpPush "open";
              OpUpdateConfiguration 1; OpConstruct (Some 3%nat); OpPush "find"] in
  wellKept h ∧
  cache (runHistoryOps ops h)
  = Some (LRUCache.mk 3 [("open", 2%Z); ("find", 3%Z)]) ∧
  wellKept (runHistoryOps ops h).
Proof.
  intros h ops.
  assert (Hh : wellKept h).
  { split; [by left|]. unfold storedCoherent. by cbn. }
  split_and!; [exact Hh|reflexivity|].
  exact (proj1 (history_stays_in_good_order ops h Hh)).
Defined.
